(** * escallmatch: call-expression matcher built from a signature

    A shallow embedding of [index.js] (the current implementation) and of
    the earlier implementation kept next to it, together with the
    properties of the matcher's public interface.

    Layout:
    - [value]: the JavaScript values syntax trees are made of;
    - [result]: normal completion or a thrown exception;
    - [Externals]: the libraries the program calls (esprima, estraverse,
      espurify, deep-equal), as an interface;
    - the functions of [index.js], in source order of dependency;
    - [Legacy]: the functions of the earlier implementation that differ;
    - [Reference]: an executable instance of [Externals];
    - sample trees and the vocabulary of the specification;
    - the properties. *)

From Stdlib Require Import String Ascii List ZArith Lia Bool Arith PeanoNat.
Import ListNotations.
Local Open Scope string_scope.
Local Open Scope list_scope.
Local Open Scope Z_scope.

#[local] Set Warnings "-register-all".

(** ** JavaScript values *)

(** Objects and arrays carry the address they live at: [===] on two objects
    compares addresses, never contents.  Numbers are the integers; they are
    enough for lengths, indices and the literals of the sample trees. *)
Inductive value : Type :=
| VUndefined
| VNull
| VBool (b : bool)
| VNum (n : Z)
| VStr (s : string)
| VArray (ref : nat) (elems : list value)
| VObject (ref : nat) (props : list (string * value)).

(** Induction principle that reaches inside arrays and objects. *)
Section ValueInd.
Variable P : value -> Prop.
Hypothesis Hundef : P VUndefined.
Hypothesis Hnull : P VNull.
Hypothesis Hbool : forall b, P (VBool b).
Hypothesis Hnum : forall n, P (VNum n).
Hypothesis Hstr : forall s, P (VStr s).
Hypothesis Harr : forall r l, Forall P l -> P (VArray r l).
Hypothesis Hobj : forall r ps, Forall (fun kv => P (snd kv)) ps -> P (VObject r ps).

Fixpoint value_deep_ind (v : value) : P v :=
  match v with
  | VUndefined => Hundef
  | VNull => Hnull
  | VBool b => Hbool b
  | VNum n => Hnum n
  | VStr s => Hstr s
  | VArray r l =>
      Harr r l ((fix go (l : list value) : Forall P l :=
                 match l with
                 | [] => Forall_nil _
                 | x :: tl => Forall_cons x (value_deep_ind x) (go tl)
                 end) l)
  | VObject r ps =>
      Hobj r ps ((fix go (ps : list (string * value))
                 : Forall (fun kv => P (snd kv)) ps :=
                 match ps with
                 | [] => Forall_nil _
                 | kv :: tl => Forall_cons kv (value_deep_ind (snd kv)) (go tl)
                 end) ps)
  end.
End ValueInd.

(** ** Completions *)

(** [TypeError] is what the engine raises (a property read on [undefined] or
    [null], a call of something that is not a function); [Error] is what the
    program and estraverse raise with [throw new Error(message)].
    [OutsideModel] marks the few operations whose JavaScript meaning needs
    coercions that are not modelled (a relational comparison or a
    subtraction on a non-number, [indexOf] on a string receiver, an array
    helper applied to a receiver that is not an array). *)
Inductive exn : Type :=
| TypeError
| Error (message : string)
| OutsideModel.

Inductive result (A : Type) : Type :=
| Ok (a : A)
| Throw (e : exn).
Arguments Ok {A} a.
Arguments Throw {A} e.

Definition bind {A B : Type} (c : result A) (f : A -> result B) : result B :=
  match c with
  | Ok a => f a
  | Throw e => Throw e
  end.

Declare Scope js_scope.
Delimit Scope js_scope with js.
Notation "x <- c ;; k" := (bind c (fun x => k))
  (at level 61, c at next level, right associativity) : js_scope.
Notation "c ;;; k" := (bind c (fun _ => k))
  (at level 61, right associativity) : js_scope.
Local Open Scope js_scope.

(** ** Primitive operations of the language *)

(** ToBoolean. *)
Definition truthy (v : value) : bool :=
  match v with
  | VUndefined | VNull => false
  | VBool b => b
  | VNum n => negb (n =? 0)
  | VStr s => negb (String.eqb s "")
  | VArray _ _ | VObject _ _ => true
  end.

(** [a === b]. *)
Definition strict_eq (a b : value) : bool :=
  match a, b with
  | VUndefined, VUndefined => true
  | VNull, VNull => true
  | VBool x, VBool y => Bool.eqb x y
  | VNum x, VNum y => x =? y
  | VStr x, VStr y => String.eqb x y
  | VArray r1 _, VArray r2 _ => Nat.eqb r1 r2
  | VObject r1 _, VObject r2 _ => Nat.eqb r1 r2
  | _, _ => false
  end.

Fixpoint lookup (k : string) (ps : list (string * value)) : option value :=
  match ps with
  | [] => None
  | (k', v) :: tl => if String.eqb k k' then Some v else lookup k tl
  end.

(** [v.k] for a property name [k] that is not an array index.  Own
    properties only: the names the program reads ([type], [callee],
    [arguments], [name], [elements], [body], [expression], [length]) are not
    inherited ones. *)
Definition get (v : value) (k : string) : result value :=
  match v with
  | VUndefined | VNull => Throw TypeError
  | VObject _ ps =>
      match lookup k ps with
      | Some x => Ok x
      | None => Ok VUndefined
      end
  | VArray _ l =>
      if String.eqb k "length" then Ok (VNum (Z.of_nat (length l)))
      else Ok VUndefined
  | VStr s =>
      if String.eqb k "length" then Ok (VNum (Z.of_nat (String.length s)))
      else Ok VUndefined
  | VBool _ | VNum _ => Ok VUndefined
  end.

(** [v[0]]: the only index the program reads. *)
Definition get_first (v : value) : result value :=
  match v with
  | VUndefined | VNull => Throw TypeError
  | VArray _ l => Ok (nth 0 l VUndefined)
  | VObject _ ps =>
      match lookup "0" ps with
      | Some x => Ok x
      | None => Ok VUndefined
      end
  | VStr s =>
      match s with
      | EmptyString => Ok VUndefined
      | String c _ => Ok (VStr (String c EmptyString))
      end
  | VBool _ | VNum _ => Ok VUndefined
  end.

(** Receiver of the array helpers ([array-foreach], [array-filter],
    [array-map], [array-reduce]). *)
Definition array_of (v : value) : result (list value) :=
  match v with
  | VArray _ l => Ok l
  | VUndefined | VNull => Throw TypeError
  | _ => Throw OutsideModel
  end.

(** A number, where the program does arithmetic on it. *)
Definition number_of (v : value) : result Z :=
  match v with
  | VNum n => Ok n
  | _ => Throw OutsideModel
  end.

(** [a <= b]: on numbers the order; [undefined] converts to NaN, which
    compares false with everything. *)
Definition js_le (a b : value) : result bool :=
  match a, b with
  | VNum x, VNum y => Ok (x <=? y)
  | VUndefined, (VUndefined | VNum _) => Ok false
  | VNum _, VUndefined => Ok false
  | _, _ => Throw OutsideModel
  end.

(** Position of the first element that is [===] to [x], or [-1]. *)
Fixpoint index_from (i : Z) (l : list value) (x : value) : Z :=
  match l with
  | [] => -1
  | y :: tl => if strict_eq y x then i else index_from (i + 1) tl x
  end.

(** [indexOf(arr, obj)] of the [indexof] package: [arr.indexOf(obj)]. *)
Definition indexOf (arr x : value) : result Z :=
  match arr with
  | VArray _ l => Ok (index_from 0 l x)
  | VStr _ => Throw OutsideModel
  | _ => Throw TypeError
  end.

(** ** The libraries *)

(** [estraverse.VisitorKeys] and the [visitorKeys] option: for each node
    type the child fields to follow, in order. *)
Definition VisitorKeys : Type := list (string * list string).

(** What [this.path()] returns inside a visitor: [null] at the root,
    otherwise the property names and array indices leading to the node. *)
Inductive path_elem : Type :=
| PKey (k : string)
| PIndex (i : nat).

Definition path : Type := list path_elem.

(** A traversal as the visitor sees it: the calls of [enter] in order, each
    with the value [this.path()] has during the call, until the traversal
    is over or estraverse throws. *)
Inductive trace : Type :=
| Done
| Enter (p : option path) (rest : trace)
| Raise (e : exn).

Class Externals : Type := {
  (** [esprima.parse] *)
  esprima_parse : string -> result value;
  (** [estraverse.VisitorKeys] *)
  estraverse_VisitorKeys : VisitorKeys;
  (** [estraverse.traverse(ast, {keys: keys, enter: ...})] for a visitor
      that returns nothing and at most calls [this.break()]. *)
  estraverse_traverse : VisitorKeys -> value -> trace;
  (** [espurify] *)
  espurify : value -> result value;
  (** [deepEqual] *)
  deepEqual : value -> value -> bool
}.

(** ** index.js *)

Definition CallExpression : string := "CallExpression".
Definition Identifier : string := "Identifier".
Definition ArrayExpression : string := "ArrayExpression".
Definition ExpressionStatement : string := "ExpressionStatement".

Definition notCallExprMessage : string :=
  "Argument should be in the form of CallExpression".
Definition duplicatedArgMessage : string := "Duplicate argument name: ".
Definition invalidFormMessage : string :=
  "Argument should be in the form of `name` or `[name]`".

Record Options : Type := { opt_visitorKeys : option VisitorKeys }.

Record Matcher : Type := {
  visitorKeys : VisitorKeys;
  signatureAst : value;
  signatureCalleeDepth : nat;
  numMaxArgs : Z;
  numMinArgs : Z
}.

(** The result objects [{name: ..., kind: ...}]. *)
Record ArgumentSignature : Type := {
  name : value;
  kind : string
}.

(** What [matchArgument] returns. *)
Inductive answer : Type :=
| Descriptor (d : ArgumentSignature)
| Null
| Undefined.

Definition absent (a : answer) : Prop := a = Null \/ a = Undefined.

(** [path ? path.length : 0] *)
Definition pathDepth_of (p : option path) : nat :=
  match p with
  | Some p => length p
  | None => 0%nat
  end.

(** The [enter] callback of [astDepth], run along a traversal. *)
Fixpoint astDepth_visit (maxDepth : nat) (t : trace) : result nat :=
  match t with
  | Done => Ok maxDepth
  | Raise e => Throw e
  | Enter p rest =>
      let pathDepth := pathDepth_of p in
      let maxDepth := if (maxDepth <? pathDepth)%nat then pathDepth else maxDepth in
      astDepth_visit maxDepth rest
  end.

(** The [enter] callback of [isSameAstDepth]; [this.break()] ends the
    traversal after the current call. *)
Fixpoint isSameAstDepth_visit (depth currentDepth : nat) (t : trace) : result nat :=
  match t with
  | Done => Ok currentDepth
  | Raise e => Throw e
  | Enter p rest =>
      let pathDepth := pathDepth_of p in
      let currentDepth :=
        if (currentDepth <? pathDepth)%nat then pathDepth else currentDepth in
      if (depth <? currentDepth)%nat then Ok currentDepth
      else isSameAstDepth_visit depth currentDepth rest
  end.

(** [identifiers(node)] *)
Definition identifiers (node : value) : result bool :=
  t <- get node "type" ;;
  Ok (strict_eq t (VStr Identifier)).

Fixpoint filter_with (f : value -> result bool) (l : list value) : result (list value) :=
  match l with
  | [] => Ok []
  | x :: tl =>
      b <- f x ;;
      r <- filter_with f tl ;;
      Ok (if b then x :: r else r)
  end.

Fixpoint map_with {B : Type} (f : value -> result B) (l : list value) : result (list B) :=
  match l with
  | [] => Ok []
  | x :: tl =>
      y <- f x ;;
      r <- map_with f tl ;;
      Ok (y :: r)
  end.

(** [toArgumentSignature]; [None] is the [null] of the default case. *)
Definition toArgumentSignature (argSignatureNode : value)
  : result (option ArgumentSignature) :=
  t <- get argSignatureNode "type" ;;
  if strict_eq t (VStr Identifier) then
    n <- get argSignatureNode "name" ;;
    Ok (Some {| name := n; kind := "mandatory" |})
  else if strict_eq t (VStr ArrayExpression) then
    els <- get argSignatureNode "elements" ;;
    e0 <- get_first els ;;
    n <- get e0 "name" ;;
    Ok (Some {| name := n; kind := "optional" |})
  else Ok None.

(** [validateArg] *)
Definition validateArg (arg : value) : result value :=
  t <- get arg "type" ;;
  if strict_eq t (VStr Identifier) then
    get arg "name"
  else if strict_eq t (VStr ArrayExpression) then
    els <- get arg "elements" ;;
    len <- get els "length" ;;
    if negb (strict_eq len (VNum 1)) then Throw (Error invalidFormMessage)
    else
      inner <- get_first els ;;
      it <- get inner "type" ;;
      if negb (strict_eq it (VStr Identifier)) then Throw (Error invalidFormMessage)
      else get inner "name"
  else Throw (Error invalidFormMessage).

(** The object [names]: its own properties.  A property key is a string;
    the trees of a parser carry strings as names. *)
Definition property_key (v : value) : result string :=
  match v with
  | VStr s => Ok s
  | _ => Throw OutsideModel
  end.

Definition hasOwn (names : list (string * value)) (k : string) : bool :=
  match lookup k names with
  | Some _ => true
  | None => false
  end.

(** [names[k] = v] on an object created by [{}].  Assignment looks the key
    up along the prototype chain first.  [Object.prototype] has one accessor
    property, [__proto__] (ECMAScript, B.2.2.1); its setter returns at once
    when the value is neither an object nor [null], and in no case creates
    an own property.  Every other key becomes an own property. *)
Definition assign (names : list (string * value)) (k : string) (v : value)
  : list (string * value) :=
  if String.eqb k "__proto__" then names else (k, v) :: names.

(** The body of the [forEach] callback in [validateApiExpression], from one
    state of [names] to the next. *)
Definition validateApiExpression_step (names : list (string * value)) (arg : value)
  : result (list (string * value)) :=
  n <- validateArg arg ;;
  k <- property_key n ;;
  if hasOwn names k then Throw (Error (duplicatedArgMessage ++ k)%string)
  else Ok (assign names k n).

Fixpoint forEach_args (names : list (string * value)) (args : list value)
  : result (list (string * value)) :=
  match args with
  | [] => Ok names
  | arg :: tl =>
      names' <- validateApiExpression_step names arg ;;
      forEach_args names' tl
  end.

(** [validateApiExpression] *)
Definition validateApiExpression (callExpression : value) : result unit :=
  t <- get callExpression "type" ;;
  if negb (strict_eq t (VStr CallExpression)) then Throw (Error notCallExprMessage)
  else
    a <- get callExpression "arguments" ;;
    args <- array_of a ;;
    forEach_args [] args ;;;
    Ok tt.

(** [extractExpressionFrom] *)
Definition extractExpressionFrom (tree : value) : result value :=
  body <- get tree "body" ;;
  statement <- get_first body ;;
  t <- get statement "type" ;;
  if negb (strict_eq t (VStr ExpressionStatement)) then Throw (Error notCallExprMessage)
  else
    expression <- get statement "expression" ;;
    validateApiExpression expression ;;;
    Ok expression.

(** [isCallExpression]: [node && node.type === syntax.CallExpression]. *)
Definition isCallExpression (node : value) : result value :=
  if truthy node then
    t <- get node "type" ;;
    Ok (VBool (strict_eq t (VStr CallExpression)))
  else Ok node.

(** [isCalleeOfParent] *)
Definition isCalleeOfParent (currentNode parentNode : value) : result value :=
  if truthy parentNode then
    if truthy currentNode then
      t <- get parentNode "type" ;;
      if strict_eq t (VStr CallExpression) then
        c <- get parentNode "callee" ;;
        Ok (VBool (strict_eq c currentNode))
      else Ok (VBool false)
    else Ok currentNode
  else Ok parentNode.

Section Program.
Context {E : Externals}.

(** [astDepth] *)
Definition astDepth (ast : value) (keys : VisitorKeys) : result nat :=
  astDepth_visit 0 (estraverse_traverse keys ast).

(** [isSameAstDepth] *)
Definition isSameAstDepth (ast : value) (depth : nat) (keys : VisitorKeys)
  : result bool :=
  currentDepth <- isSameAstDepth_visit depth 0 (estraverse_traverse keys ast) ;;
  Ok (Nat.eqb depth currentDepth).

(** [isCalleeMatched] *)
Definition isCalleeMatched (callSignature : value) (signatureCalleeDepth : nat)
           (node : value) (keys : VisitorKeys) : result bool :=
  c <- isCallExpression node ;;
  if negb (truthy c) then Ok false
  else
    callee <- get node "callee" ;;
    same <- isSameAstDepth callee signatureCalleeDepth keys ;;
    if negb same then Ok false
    else
      sc <- get callSignature "callee" ;;
      p1 <- espurify sc ;;
      nc <- get node "callee" ;;
      p2 <- espurify nc ;;
      Ok (deepEqual p1 p2).

(** [new Matcher(signatureAst, options)] *)
Definition Matcher_new (signatureAst : value) (options : Options) : result Matcher :=
  let keys :=
    match opt_visitorKeys options with
    | Some k => k
    | None => estraverse_VisitorKeys
    end in
  callee <- get signatureAst "callee" ;;
  depth <- astDepth callee keys ;;
  a <- get signatureAst "arguments" ;;
  args <- array_of a ;;
  ids <- filter_with identifiers args ;;
  Ok {| visitorKeys := keys;
        signatureAst := signatureAst;
        signatureCalleeDepth := depth;
        numMaxArgs := Z.of_nat (length args);
        numMinArgs := Z.of_nat (length ids) |}.

(** [createMatcher]; an absent [options] stands for [{}]. *)
Definition createMatcher (signatureStr : string) (options : option Options)
  : result Matcher :=
  tree <- esprima_parse signatureStr ;;
  ast <- extractExpressionFrom tree ;;
  Matcher_new ast
    (match options with
     | Some o => o
     | None => {| opt_visitorKeys := None |}
     end).

(** [Matcher.prototype.test] *)
Definition test (this : Matcher) (currentNode : value) : result bool :=
  calleeMatched <- isCalleeMatched (signatureAst this) (signatureCalleeDepth this)
                     currentNode (visitorKeys this) ;;
  if calleeMatched then
    a <- get currentNode "arguments" ;;
    numArgs <- get a "length" ;;
    lo <- js_le (VNum (numMinArgs this)) numArgs ;;
    if lo then js_le numArgs (VNum (numMaxArgs this)) else Ok false
  else Ok false.

(** [Matcher.prototype.argumentSignatures] *)
Definition argumentSignatures (this : Matcher)
  : result (list (option ArgumentSignature)) :=
  a <- get (signatureAst this) "arguments" ;;
  args <- array_of a ;;
  map_with toArgumentSignature args.

(** The callback of [reduce] in [matchArgument]; the state is the captured
    variable [numOptional] and the accumulator. *)
Definition reduce_step (st : Z * list ArgumentSignature)
           (argSig : option ArgumentSignature)
  : result (Z * list ArgumentSignature) :=
  match argSig with
  | None => Throw TypeError
  | Some s =>
      let '(numOptional, accum) := st in
      let accum := if String.eqb (kind s) "mandatory" then accum ++ [s] else accum in
      if String.eqb (kind s) "optional" && (0 <? numOptional) then
        Ok (numOptional - 1, accum ++ [s])
      else Ok (numOptional, accum)
  end.

Fixpoint reduce (st : Z * list ArgumentSignature)
         (sigs : list (option ArgumentSignature))
  : result (Z * list ArgumentSignature) :=
  match sigs with
  | [] => Ok st
  | s :: tl =>
      st' <- reduce_step st s ;;
      reduce st' tl
  end.

(** [matchedSignatures[i]] *)
Definition element_at (l : list ArgumentSignature) (i : Z) : answer :=
  if i <? 0 then Undefined
  else match nth_error l (Z.to_nat i) with
       | Some d => Descriptor d
       | None => Undefined
       end.

(** [Matcher.prototype.matchArgument] *)
Definition matchArgument (this : Matcher) (currentNode parentNode : value)
  : result answer :=
  c <- isCalleeOfParent currentNode parentNode ;;
  if truthy c then Ok Null
  else
    t <- test this parentNode ;;
    if t then
      a <- get parentNode "arguments" ;;
      indexOfCurrentArg <- indexOf a currentNode ;;
      len <- get a "length" ;;
      n <- number_of len ;;
      let numOptional := n - numMinArgs this in
      sigs <- argumentSignatures this ;;
      st <- reduce (numOptional, []) sigs ;;
      Ok (element_at (snd st) indexOfCurrentArg)
    else Ok Null.

(** [Matcher.prototype.calleeAst] *)
Definition calleeAst (this : Matcher) : result value :=
  c <- get (signatureAst this) "callee" ;;
  espurify c.

End Program.

(** ** The earlier implementation

    The functions below are the ones that differ from [index.js];
    [validateApiExpression], [validateArg], [extractExpressionFrom],
    [isCallExpression], [isCalleeOfParent] and [identifiers] are the same
    text in both files, and [argMatchResult] is [toArgumentSignature] under
    its earlier name. *)
Module Legacy.

Record Matcher : Type := {
  signatureAst : value;
  numMaxArgs : Z;
  numMinArgs : Z
}.

(** [arr[i]] on an array. *)
Definition get_at (arr : value) (i : Z) : result value :=
  match arr with
  | VArray _ l =>
      if i <? 0 then Ok VUndefined else Ok (nth (Z.to_nat i) l VUndefined)
  | VUndefined | VNull => Throw TypeError
  | _ => Throw OutsideModel
  end.

Definition argMatchResult (argSignatureNode : value)
  : result (option ArgumentSignature) :=
  toArgumentSignature argSignatureNode.

Section Program.
Context {E : Externals}.

(** [astDepth]: the traversal is started without a [keys] option and so
    follows [estraverse.VisitorKeys]. *)
Definition astDepth (ast : value) : result nat :=
  astDepth_visit 0 (estraverse_traverse estraverse_VisitorKeys ast).

(** [isCalleeMatched] *)
Definition isCalleeMatched (callExp1 callExp2 : value) : result bool :=
  c1 <- isCallExpression callExp1 ;;
  if negb (truthy c1) then Ok false
  else
    c2 <- isCallExpression callExp2 ;;
    if negb (truthy c2) then Ok false
    else
      callee1 <- get callExp1 "callee" ;;
      d1 <- astDepth callee1 ;;
      callee2 <- get callExp2 "callee" ;;
      d2 <- astDepth callee2 ;;
      if negb (Nat.eqb d1 d2) then Ok false
      else
        p1 <- espurify callee1 ;;
        p2 <- espurify callee2 ;;
        Ok (deepEqual p1 p2).

(** [new Matcher(signatureAst)] *)
Definition Matcher_new (signatureAst : value) : result Matcher :=
  a <- get signatureAst "arguments" ;;
  args <- array_of a ;;
  ids <- filter_with identifiers args ;;
  Ok {| signatureAst := signatureAst;
        numMaxArgs := Z.of_nat (length args);
        numMinArgs := Z.of_nat (length ids) |}.

(** [createMatcher] *)
Definition createMatcher (signatureStr : string) : result Matcher :=
  tree <- esprima_parse signatureStr ;;
  ast <- extractExpressionFrom tree ;;
  Matcher_new ast.

(** [Matcher.prototype.test] *)
Definition test (this : Matcher) (currentNode : value) : result bool :=
  calleeMatched <- isCalleeMatched (signatureAst this) currentNode ;;
  if calleeMatched then
    a <- get currentNode "arguments" ;;
    numArgs <- get a "length" ;;
    lo <- js_le (VNum (numMinArgs this)) numArgs ;;
    if lo then js_le numArgs (VNum (numMaxArgs this)) else Ok false
  else Ok false.

(** [Matcher.prototype.matchArgument] *)
Definition matchArgument (this : Matcher) (currentNode parentNode : value)
  : result answer :=
  c <- isCalleeOfParent currentNode parentNode ;;
  if truthy c then Ok Null
  else
    t <- test this parentNode ;;
    if t then
      a <- get parentNode "arguments" ;;
      indexOfCurrentArg <- indexOf a currentNode ;;
      sa <- get (signatureAst this) "arguments" ;;
      argSignatureNode <- get_at sa indexOfCurrentArg ;;
      r <- argMatchResult argSignatureNode ;;
      Ok (match r with
          | Some d => Descriptor d
          | None => Null
          end)
    else Ok Null.

End Program.
End Legacy.

(** ** An executable instance of the libraries *)
Module Reference.

(** [isNode] of estraverse: an object whose [type] is a string. *)
Definition isNode (v : value) : bool :=
  match v with
  | VObject _ ps =>
      match lookup "type" ps with
      | Some (VStr _) => true
      | _ => false
      end
  | _ => false
  end.

Fixpoint lookup_keys (t : string) (keys : VisitorKeys) : option (list string) :=
  match keys with
  | [] => None
  | (t', ks) :: tl => if String.eqb t t' then Some ks else lookup_keys t tl
  end.

(** The table of estraverse for the ES5 node types. *)
Definition VisitorKeys_default : VisitorKeys :=
  [ ("AssignmentExpression", ["left"; "right"]);
    ("ArrayExpression", ["elements"]);
    ("BlockStatement", ["body"]);
    ("BinaryExpression", ["left"; "right"]);
    ("BreakStatement", ["label"]);
    ("CallExpression", ["callee"; "arguments"]);
    ("CatchClause", ["param"; "body"]);
    ("ConditionalExpression", ["test"; "consequent"; "alternate"]);
    ("ContinueStatement", ["label"]);
    ("DebuggerStatement", []);
    ("DoWhileStatement", ["body"; "test"]);
    ("EmptyStatement", []);
    ("ExpressionStatement", ["expression"]);
    ("ForStatement", ["init"; "test"; "update"; "body"]);
    ("ForInStatement", ["left"; "right"; "body"]);
    ("FunctionDeclaration", ["id"; "params"; "body"]);
    ("FunctionExpression", ["id"; "params"; "body"]);
    ("Identifier", []);
    ("IfStatement", ["test"; "consequent"; "alternate"]);
    ("Literal", []);
    ("LabeledStatement", ["label"; "body"]);
    ("LogicalExpression", ["left"; "right"]);
    ("MemberExpression", ["object"; "property"]);
    ("NewExpression", ["callee"; "arguments"]);
    ("ObjectExpression", ["properties"]);
    ("Program", ["body"]);
    ("Property", ["key"; "value"]);
    ("ReturnStatement", ["argument"]);
    ("SequenceExpression", ["expressions"]);
    ("SwitchStatement", ["discriminant"; "cases"]);
    ("SwitchCase", ["test"; "consequent"]);
    ("ThisExpression", []);
    ("ThrowStatement", ["argument"]);
    ("TryStatement", ["block"; "handler"; "finalizer"]);
    ("UnaryExpression", ["argument"]);
    ("UpdateExpression", ["argument"]);
    ("VariableDeclaration", ["declarations"]);
    ("VariableDeclarator", ["id"; "init"]);
    ("WhileStatement", ["test"; "body"]);
    ("WithStatement", ["object"; "body"]) ].

Fixpoint tapp (t1 t2 : trace) : trace :=
  match t1 with
  | Done => t2
  | Enter p rest => Enter p (tapp rest t2)
  | Raise e => Raise e
  end.

Definition path_under (p : option path) (suffix : path) : option path :=
  match p with
  | None => Some suffix
  | Some q => Some (q ++ suffix)
  end.

(** The key under which a node's children are looked up:
    [node.type || element.wrap], as a property name of the key table. *)
Definition nodeType_of (t : value) (wrap : option string) : result string :=
  if truthy t then
    match t with
    | VStr s => Ok s
    | _ => Throw OutsideModel
    end
  else
    match wrap with
    | Some w => Ok w
    | None => Ok "null"
    end.

Definition isProperty (nodeType key : string) : bool :=
  (String.eqb nodeType "ObjectExpression" || String.eqb nodeType "ObjectPattern")
  && String.eqb key "properties".

Definition unknownNodeType (nodeType : string) : exn :=
  Error ("Unknown node type " ++ nodeType ++ ".").

(** The loops of the traversal: over the keys of a node, over its
    properties to the one named by a key, over the elements of an array
    child. *)
Definition each_key (f : string -> trace) : list string -> trace :=
  fix go (cs : list string) : trace :=
    match cs with
    | [] => Done
    | key :: cs' => tapp (f key) (go cs')
    end.

Definition find_child (key : string) (f : value -> trace)
  : list (string * value) -> trace :=
  fix find (qs : list (string * value)) : trace :=
    match qs with
    | [] => Done
    | (k', candidate) :: qs' =>
        if String.eqb key k' then f candidate else find qs'
    end.

Definition each_elem (f : nat -> value -> trace) : nat -> list value -> trace :=
  fix go (i : nat) (es : list value) : trace :=
    match es with
    | [] => Done
    | e :: es' => tapp (f i e) (go (S i) es')
    end.

Definition type_of (ps : list (string * value)) : value :=
  match lookup "type" ps with
  | Some t => t
  | None => VUndefined
  end.

(** Modelled from the spec: the traversal utility is an external
    collaborator; this is the order in which estraverse's [traverse]
    calls [enter] (depth first, children in key order, array children in
    index order), with the path it maintains, for a visitor that never
    skips.  A falsy root is not visited; a node whose type has no entry
    in the key table raises after its own [enter]. *)
Fixpoint walk (keys : VisitorKeys) (p : option path) (wrap : option string)
         (node : value) {struct node} : trace :=
  match node with
  | VObject _ ps =>
      Enter p
        match nodeType_of (type_of ps) wrap with
        | Throw e => Raise e
        | Ok nodeType =>
            match lookup_keys nodeType keys with
            | None => Raise (unknownNodeType nodeType)
            | Some candidates =>
                each_key
                  (fun key =>
                     find_child key
                       (fun candidate =>
                          match candidate with
                          | VArray _ elems =>
                              each_elem
                                (fun i e =>
                                   if negb (truthy e) then Done
                                   else if isProperty nodeType key then
                                     walk keys (path_under p [PKey key; PIndex i])
                                          (Some "Property") e
                                   else if isNode e then
                                     walk keys (path_under p [PKey key; PIndex i])
                                          None e
                                   else Done)
                                0%nat elems
                          | _ =>
                              if isNode candidate then
                                walk keys (path_under p [PKey key]) None candidate
                              else Done
                          end)
                       ps)
                  candidates
            end
        end
  | VUndefined | VNull => Done
  | _ =>
      if truthy node then
        Enter p
          match lookup_keys (match wrap with Some w => w | None => "null" end) keys with
          | Some _ => Done
          | None =>
              Raise (unknownNodeType (match wrap with Some w => w | None => "null" end))
          end
      else Done
  end.

(** The visits below one child field of a node, as [walk] makes them. *)
Definition child_trace (keys : VisitorKeys) (p : option path)
           (nodeType key : string) (candidate : value) : trace :=
  match candidate with
  | VArray _ elems =>
      each_elem
        (fun i e =>
           if negb (truthy e) then Done
           else if isProperty nodeType key then
             walk keys (path_under p [PKey key; PIndex i]) (Some "Property") e
           else if isNode e then
             walk keys (path_under p [PKey key; PIndex i]) None e
           else Done)
        0%nat elems
  | _ =>
      if isNode candidate then
        walk keys (path_under p [PKey key]) None candidate
      else Done
  end.

(** [traverse(root, {keys: keys, ...})]: the given table extends the
    default one. *)
Definition traverse (keys : VisitorKeys) (root : value) : trace :=
  walk (keys ++ VisitorKeys_default) None None root.

(** Fields that carry no meaning of the program: positions and attached
    comments. *)
Definition metadata : list string :=
  ["loc"; "range"; "leadingComments"; "trailingComments"].

Definition is_metadata (k : string) : bool :=
  existsb (String.eqb k) metadata.

Definition strip (f : value -> value) : list (string * value) -> list (string * value) :=
  fix go (ps : list (string * value)) : list (string * value) :=
    match ps with
    | [] => []
    | (k, x) :: tl => if is_metadata k then go tl else (k, f x) :: go tl
    end.

(** Modelled from the spec: purification is done by an external
    collaborator; [purify] is the deep copy of a value without its
    metadata fields, at every level.  The address of a copy is never
    observed and is set to [0]. *)
Fixpoint purify (v : value) : value :=
  match v with
  | VArray _ l => VArray 0 (map purify l)
  | VObject _ ps => VObject 0 (strip purify ps)
  | _ => v
  end.

(** Modelled from the spec: deep structural equality is done by an
    external collaborator; two values are equal when they are of the
    same kind and equal field by field (objects: the same keys, in any
    order, with equal values; arrays: the same length, equal element by
    element; otherwise strictly equal).  Addresses play no part. *)
Fixpoint deep_equal (a b : value) {struct a} : bool :=
  match a, b with
  | VArray _ l1, VArray _ l2 =>
      (fix all2 (l1 l2 : list value) : bool :=
         match l1, l2 with
         | [], [] => true
         | x :: t1, y :: t2 => deep_equal x y && all2 t1 t2
         | _, _ => false
         end) l1 l2
  | VObject _ ps1, VObject _ ps2 =>
      Nat.eqb (length ps1) (length ps2)
      && (fix all (ps : list (string * value)) : bool :=
            match ps with
            | [] => true
            | (k, x) :: tl =>
                match lookup k ps2 with
                | Some y => deep_equal x y && all tl
                | None => false
                end
            end) ps1
  | VArray _ _, _ | VObject _ _, _ => false
  | _, (VArray _ _ | VObject _ _) => false
  | _, _ => strict_eq a b
  end.

End Reference.

(** ** Sample trees

    Trees as esprima prints them.  Objects are numbered by hand; the array
    held by a node takes the number of the node (arrays and objects are
    never compared with each other). *)
Module Sample.

Definition node (r : nat) (type : string) (props : list (string * value)) : value :=
  VObject r (("type", VStr type) :: props).

Definition ident (r : nat) (n : string) : value :=
  node r Identifier [("name", VStr n)].

Definition literal (r : nat) (n : Z) (raw : string) : value :=
  node r "Literal" [("value", VNum n); ("raw", VStr raw)].

Definition member (r : nat) (object property : value) : value :=
  node r "MemberExpression"
       [("computed", VBool false); ("object", object); ("property", property)].

Definition call (r : nat) (callee : value) (args : list value) : value :=
  node r CallExpression [("callee", callee); ("arguments", VArray r args)].

Definition array (r : nat) (elems : list value) : value :=
  node r ArrayExpression [("elements", VArray r elems)].

Definition statement (r : nat) (expression : value) : value :=
  node r ExpressionStatement [("expression", expression)].

Definition program (r : nat) (body : list value) : value :=
  node r "Program" [("body", VArray r body)].

(** A node with the [range] the parser records under [{range: true}]. *)
Definition ranged (from to : Z) (v : value) : value :=
  match v with
  | VObject r ps => VObject r (ps ++ [("range", VArray (1000 + r) [VNum from; VNum to])])
  | _ => v
  end.

(** The signature [f(a, [b])] and the program it is parsed into. *)
Definition call_f_a_optb : value :=
  call 3 (ident 4 "f") [ident 5 "a"; array 6 [ident 7 "b"]].
Definition sig_f_a_optb : value := program 1 [statement 2 call_f_a_optb].

(** [f(a, [a])] *)
Definition call_f_a_opta : value :=
  call 3 (ident 4 "f") [ident 5 "a"; array 6 [ident 7 "a"]].
Definition sig_f_a_opta : value := program 1 [statement 2 call_f_a_opta].

(** [f([a], b)] *)
Definition call_f_opta_b : value :=
  call 3 (ident 4 "f") [array 5 [ident 6 "a"]; ident 7 "b"].
Definition sig_f_opta_b : value := program 1 [statement 2 call_f_opta_b].

(** [f(a, b, c)] *)
Definition call_f_a_b_c : value :=
  call 3 (ident 4 "f") [ident 5 "a"; ident 6 "b"; ident 7 "c"].
Definition sig_f_a_b_c : value := program 1 [statement 2 call_f_a_b_c].

(** [f(__proto__, __proto__)] *)
Definition call_f_proto_proto : value :=
  call 3 (ident 4 "f") [ident 5 "__proto__"; ident 6 "__proto__"].
Definition sig_f_proto_proto : value := program 1 [statement 2 call_f_proto_proto].

(** [obj.method(a)] *)
Definition call_obj_method_a : value :=
  call 3 (member 4 (ident 5 "obj") (ident 6 "method")) [ident 7 "a"].
Definition sig_obj_method_a : value := program 1 [statement 2 call_obj_method_a].

(** [a.b()] *)
Definition call_a_b : value := call 3 (member 4 (ident 5 "a") (ident 6 "b")) [].
Definition sig_a_b : value := program 1 [statement 2 call_a_b].

(** [f()] *)
Definition call_f : value := call 3 (ident 4 "f") [].
Definition sig_f : value := program 1 [statement 2 call_f].

(** The empty program. *)
Definition sig_empty : value := program 1 [].

(** [f], an expression statement that is no call. *)
Definition sig_ident_only : value := program 1 [statement 2 (ident 3 "f")].

(** [esprima.parse] on the signature strings above. *)
Definition parse_table : list (string * value) :=
  [ ("f(a, [b])", sig_f_a_optb);
    ("f(a, [a])", sig_f_a_opta);
    ("f([a], b)", sig_f_opta_b);
    ("f(a, b, c)", sig_f_a_b_c);
    ("f(__proto__, __proto__)", sig_f_proto_proto);
    ("obj.method(a)", sig_obj_method_a);
    ("a.b()", sig_a_b);
    ("f()", sig_f);
    ("", sig_empty);
    ("f", sig_ident_only) ].

Definition parse (s : string) : result value :=
  match lookup s parse_table with
  | Some tree => Ok tree
  | None => Throw OutsideModel
  end.

(** Candidates. *)
Definition one : value := literal 12 1 "1".
Definition two : value := literal 13 2 "2".
Definition callee_f : value := ident 11 "f".

(** [f(1)] *)
Definition cand_f_1 : value := call 10 callee_f [one].
(** [f(1, 2)] *)
Definition cand_f_1_2 : value := call 10 callee_f [one; two].
(** [f()] *)
Definition cand_f : value := call 10 callee_f [].

(** [a.b.c()] *)
Definition cand_a_b_c : value :=
  call 10 (member 11 (member 12 (ident 13 "a") (ident 14 "b")) (ident 15 "c")) [].

(** [a.b()] *)
Definition cand_a_b : value :=
  call 10 (member 11 (ident 13 "a") (ident 14 "b")) [].

(** A call node without an [arguments] field. *)
Definition cand_f_no_arguments : value :=
  node 10 CallExpression [("callee", callee_f)].

(** The call [f(1)] as a tree whose callee identifier carries an attached
    block comment in its [leadingComments] field. *)
Definition callee_f_commented : value :=
  node 11 Identifier
       [("name", VStr "f");
        ("leadingComments",
         VArray 11 [node 16 "Block" [("value", VStr " note ")]])].
Definition cand_commented_f_1 : value := call 10 callee_f_commented [one].

(** Traversal keys that follow attached comments. *)
Definition comment_keys : VisitorKeys :=
  [(Identifier, ["leadingComments"]); ("Block", []); ("Line", [])].

(** [obj.method(x)] read at offset [off]. *)
Definition cand_obj_method_x (r : nat) (off : Z) : value :=
  ranged off (off + 13)
    (call r (ranged off (off + 10)
               (member (r + 1)
                       (ranged off (off + 3) (ident (r + 2) "obj"))
                       (ranged (off + 4) (off + 10) (ident (r + 3) "method"))))
            [ranged (off + 11) (off + 12) (ident (r + 4) "x")]).

(** [f(a, [1], a)]: an array literal around a number, then a repeated
    name. *)
Definition call_f_a_lit_a : value :=
  call 3 (ident 4 "f") [ident 5 "a"; array 6 [literal 7 1 "1"]; ident 8 "a"].

(** [f([,])]: an array literal whose one element is a hole. *)
Definition hole_argument : value := array 6 [VNull].

(** [f(a, [b]); g()]: two statements. *)
Definition sig_two_statements : value :=
  program 1 [statement 2 call_f_a_optb; statement 8 (call 9 (ident 10 "g") [])].

End Sample.

(** The instance: the reference models, with [Sample.parse] as parser. *)
Definition reference : Externals := {|
  esprima_parse := Sample.parse;
  estraverse_VisitorKeys := Reference.VisitorKeys_default;
  estraverse_traverse := Reference.traverse;
  espurify := fun v => Ok (Reference.purify v);
  deepEqual := Reference.deep_equal
|}.

(** A matcher out of a construction that succeeded. *)
Definition matcher_of (r : result Matcher) : Matcher :=
  match r with
  | Ok m => m
  | Throw _ =>
      {| visitorKeys := []; signatureAst := VUndefined; signatureCalleeDepth := 0;
         numMaxArgs := 0; numMinArgs := 0 |}
  end.

Definition legacy_matcher_of (r : result Legacy.Matcher) : Legacy.Matcher :=
  match r with
  | Ok m => m
  | Throw _ =>
      {| Legacy.signatureAst := VUndefined; Legacy.numMaxArgs := 0;
         Legacy.numMinArgs := 0 |}
  end.

Definition no_options : Options := {| opt_visitorKeys := None |}.

(** Matchers of the sample signatures. *)
Definition m_a_b : Matcher := matcher_of (@createMatcher reference "a.b()" None).
Definition m_f : Matcher := matcher_of (@createMatcher reference "f()" None).
Definition m_f_a_optb : Matcher := matcher_of (@createMatcher reference "f(a, [b])" None).
Definition m_f_opta_b : Matcher := matcher_of (@createMatcher reference "f([a], b)" None).
Definition m_obj_method_a : Matcher :=
  matcher_of (@createMatcher reference "obj.method(a)" None).
Definition legacy_m_f_opta_b : Legacy.Matcher :=
  legacy_matcher_of (@Legacy.createMatcher reference "f([a], b)").
Definition legacy_m_f_a_optb : Legacy.Matcher :=
  legacy_matcher_of (@Legacy.createMatcher reference "f(a, [b])").

Definition comment_options : Options :=
  {| opt_visitorKeys := Some Sample.comment_keys |}.
Definition m_f_a_optb_comments : Matcher :=
  matcher_of (@createMatcher reference "f(a, [b])" (Some comment_options)).

(** ** Vocabulary of the specification *)

Fixpoint somes {A : Type} (l : list (option A)) : list A :=
  match l with
  | [] => []
  | Some a :: tl => a :: somes tl
  | None :: tl => somes tl
  end.

(** The descriptors of the signature's parameters, in declared order. *)
Definition declared (m : Matcher) : list ArgumentSignature :=
  match argumentSignatures m with
  | Ok l => somes l
  | Throw _ => []
  end.

Definition is_mandatory (d : ArgumentSignature) : bool := String.eqb (kind d) "mandatory".
Definition is_optional (d : ArgumentSignature) : bool := String.eqb (kind d) "optional".

(** The assignment in the words of the specification: walk the declared
    descriptors in order, emit every mandatory one, and emit an optional
    one only while the number of filled optional slots is positive,
    counting it down at each emission. *)
Fixpoint assigned (ds : list ArgumentSignature) (filled : Z) : list ArgumentSignature :=
  match ds with
  | [] => []
  | d :: tl =>
      if is_mandatory d then d :: assigned tl filled
      else if is_optional d && (0 <? filled) then d :: assigned tl (filled - 1)
      else assigned tl filled
  end.

(** The candidate has [n] arguments. *)
Definition argument_count (N : value) (n : Z) : Prop :=
  exists a, get N "arguments" = Ok a /\ get a "length" = Ok (VNum n).

(** The candidate's callee has the structural depth recorded for the
    signature's callee, under the matcher's traversal keys. *)
Definition callee_depth_agrees {E : Externals} (m : Matcher) (N : value) : Prop :=
  exists c, get N "callee" = Ok c
            /\ astDepth c (visitorKeys m) = Ok (signatureCalleeDepth m).

(** The purified candidate callee is deeply equal to the purified
    signature callee. *)
Definition purified_callee_equal {E : Externals} (m : Matcher) (N : value) : Prop :=
  exists c sc p1 p2,
    get N "callee" = Ok c /\ get (signatureAst m) "callee" = Ok sc
    /\ espurify sc = Ok p1 /\ espurify c = Ok p2 /\ deepEqual p1 p2 = true.

(** The characterisation of [test] without the depth condition: [test]
    is true exactly on call expressions whose purified callee equals the
    signature's and whose argument count lies in [[k, k + o]]. *)
Definition test_iff_call_callee_count {E : Externals} (m : Matcher) (k o : Z)
           (N : value) : Prop :=
  test m N = Ok true <->
  (isCallExpression N = Ok (VBool true)
   /\ purified_callee_equal m N
   /\ exists n, argument_count N n /\ k <= n <= k + o).

(** A candidate on which the libraries complete: anything that is not a
    call expression, or a call expression whose callee can be traversed
    and purified and whose arguments are held in an array. *)
Definition well_formed_candidate {E : Externals} (m : Matcher) (N : value) : Prop :=
  isCallExpression N <> Ok (VBool true)
  \/ exists c d p r args,
       get N "callee" = Ok c
       /\ astDepth c (visitorKeys m) = Ok d
       /\ espurify c = Ok p
       /\ get N "arguments" = Ok (VArray r args).

(** Fields in which a parser records where a node was read. *)
Definition position_keys : list string := ["loc"; "range"].

Definition is_position (k : string) : bool :=
  existsb (String.eqb k) position_keys.

(** A position record: a value that is no node and, if an array, holds no
    node (the [{start, end}] object under [loc], the pair of offsets under
    [range]). *)
Definition inert (v : value) : bool :=
  match v with
  | VArray _ es => forallb (fun e => negb (Reference.isNode e)) es
  | _ => negb (Reference.isNode v)
  end.

Definition forall2b {A B : Type} (f : A -> B -> bool) : list A -> list B -> bool :=
  fix go (l1 : list A) (l2 : list B) : bool :=
    match l1, l2 with
    | [], [] => true
    | x :: t1, y :: t2 => f x y && go t1 t2
    | _, _ => false
    end.

(** Two values that are the same tree read at two places: equal kind by
    kind and field by field, except for the addresses and for the position
    records held under [loc] and [range]. *)
Fixpoint relocated (a b : value) {struct a} : bool :=
  match a, b with
  | VUndefined, VUndefined => true
  | VNull, VNull => true
  | VBool x, VBool y => Bool.eqb x y
  | VNum x, VNum y => x =? y
  | VStr x, VStr y => String.eqb x y
  | VArray _ l1, VArray _ l2 => forall2b relocated l1 l2
  | VObject _ ps1, VObject _ ps2 =>
      forall2b
        (fun (kv1 kv2 : string * value) =>
           let (k1, v1) := kv1 in
           let (k2, v2) := kv2 in
           String.eqb k1 k2
           && (if is_position k1 then inert v1 && inert v2 else relocated v1 v2))
        ps1 ps2
  | _, _ => false
  end.

(** Every descriptor is of one of the two kinds. *)
Definition known_kind (d : ArgumentSignature) : Prop :=
  kind d = "mandatory" \/ kind d = "optional".

(** Results of one property read on two relocated values. *)
Definition related_results (r1 r2 : result value) : Prop :=
  match r1, r2 with
  | Ok x, Ok y => relocated x y = true
  | Throw e1, Throw e2 => e1 = e2
  | _, _ => False
  end.

(** No optional parameter is declared before a mandatory one. *)
Fixpoint optional_last (ds : list ArgumentSignature) : bool :=
  match ds with
  | [] => true
  | d :: tl => if is_mandatory d then optional_last tl else forallb is_optional tl
  end.

(** The names that [names] can record: every name but [__proto__]. *)
Definition not_proto (s : string) : bool := negb (String.eqb s "__proto__").

(** The argument node resolves to the parameter name [n]. *)
Definition resolves (arg : value) (n : string) : Prop :=
  validateArg arg = Ok (VStr n).

(** The node is an identifier whose text is [n]. *)
Definition identifier_named (v : value) (n : string) : Prop :=
  get v "type" = Ok (VStr Identifier) /\ get v "name" = Ok (VStr n).

(** The two accepted forms of a parameter named [n]: the identifier [n],
    or an array literal whose elements have length 1 and whose first
    element is the identifier [n]. *)
Definition parameter_form (arg : value) (n : string) : Prop :=
  identifier_named arg n
  \/ (get arg "type" = Ok (VStr ArrayExpression)
      /\ exists els inner,
           get arg "elements" = Ok els
           /\ get els "length" = Ok (VNum 1)
           /\ get_first els = Ok inner
           /\ identifier_named inner n).

(** The descriptor at index [i] is kept when [numOptional] optional slots
    are filled: it is mandatory, or it is optional and fewer than
    [numOptional] optional descriptors are declared before it. *)
Definition keeps (ds : list ArgumentSignature) (numOptional : Z) (i : nat)
           (d : ArgumentSignature) : bool :=
  is_mandatory d
  || (is_optional d
      && (Z.of_nat (length (filter is_optional (firstn i ds))) <? numOptional)).

(** The declared descriptors that are kept, in declared order. *)
Definition selection (ds : list ArgumentSignature) (numOptional : Z)
  : list ArgumentSignature :=
  map snd
      (filter (fun id : nat * ArgumentSignature => keeps ds numOptional (fst id) (snd id))
              (combine (seq 0 (length ds)) ds)).

(** A traversal that starts with visits at the given paths. *)
Fixpoint enters (ps : list (option path)) (t : trace) : trace :=
  match ps with
  | [] => t
  | p :: tl => Enter p (enters tl t)
  end.

(** The traversal keys a matcher is built with. *)
Definition keys_of {E : Externals} (options : Options) : VisitorKeys :=
  match opt_visitorKeys options with
  | Some k => k
  | None => estraverse_VisitorKeys
  end.

(** * Properties *)

(** ** Completions *)

Lemma bind_Ok (A B : Type) (c : result A) (f : A -> result B) (b : B) :
  bind c f = Ok b -> exists a, c = Ok a /\ f a = Ok b.
Proof.
  destruct c as [a|e]; simpl; intros H; [eauto | discriminate].
Qed.

Ltac bind_inv H :=
  let x := fresh "x" in
  let Hx := fresh "Hx" in
  apply bind_Ok in H; destruct H as (x & Hx & H).

Tactic Notation "bind_split" hyp(H) "as" ident(x) ident(Hx) :=
  apply bind_Ok in H; destruct H as (x & Hx & H).

(** ** Primitive operations *)

Lemma truthy_VBool_true (c : value) (N : value) :
  isCallExpression N = Ok c -> truthy c = true -> c = VBool true.
Proof.
  unfold isCallExpression.
  destruct (truthy N) eqn:HN.
  - intros H. bind_inv H. injection H as <-. simpl.
    intros ->. reflexivity.
  - intros H. injection H as <-. congruence.
Qed.

Lemma isCallExpression_Ok (N : value) : exists c, isCallExpression N = Ok c.
Proof.
  unfold isCallExpression.
  destruct N; simpl; eauto.
  - destruct b; simpl; eauto.
  - destruct (negb (n =? 0)); simpl; eauto.
  - destruct (negb (String.eqb s "")); simpl; eauto.
  - destruct (lookup "type" props); simpl; eauto.
Qed.

Lemma strict_eq_VStr (t : value) (s : string) :
  strict_eq t (VStr s) = true -> t = VStr s.
Proof.
  destruct t; simpl; try discriminate.
  intros H. apply String.eqb_eq in H. congruence.
Qed.

(** ** Structural depth *)

Lemma astDepth_visit_ge (t : trace) : forall (m d : nat),
  astDepth_visit m t = Ok d -> (m <= d)%nat.
Proof.
  induction t as [|p rest IH|e]; simpl; intros m d H.
  - injection H as <-. lia.
  - apply IH in H.
    destruct (Nat.ltb_spec m (pathDepth_of p)); lia.
  - discriminate.
Qed.

(** Breaking off early does not change the verdict: when the whole
    traversal completes with maximal depth [d], the bounded one completes
    too, and its counter equals [depth] exactly when [d] does. *)
Lemma isSameAstDepth_visit_complete (t : trace) : forall (depth cur d : nat),
  (cur <= depth)%nat ->
  astDepth_visit cur t = Ok d ->
  exists cd, isSameAstDepth_visit depth cur t = Ok cd
             /\ Nat.eqb depth cd = Nat.eqb depth d.
Proof.
  induction t as [|p rest IH|e]; simpl; intros depth cur d Hle H.
  - injection H as <-. eauto.
  - set (cur' := if (cur <? pathDepth_of p)%nat then pathDepth_of p else cur) in *.
    destruct (Nat.ltb_spec depth cur') as [Hlt|Hge].
    + exists cur'. split; [reflexivity|].
      apply astDepth_visit_ge in H.
      transitivity false; [|symmetry]; apply Nat.eqb_neq; lia.
    + apply IH; assumption.
  - discriminate.
Qed.

Lemma isSameAstDepth_visit_sound (t : trace) : forall (depth cur : nat),
  (cur <= depth)%nat ->
  isSameAstDepth_visit depth cur t = Ok depth ->
  astDepth_visit cur t = Ok depth.
Proof.
  induction t as [|p rest IH|e]; simpl; intros depth cur Hle H.
  - assumption.
  - set (cur' := if (cur <? pathDepth_of p)%nat then pathDepth_of p else cur) in *.
    destruct (Nat.ltb_spec depth cur') as [Hlt|Hge].
    + injection H as H. lia.
    + apply IH; assumption.
  - discriminate.
Qed.

Section Depth.
Context {E : Externals}.

Lemma isSameAstDepth_astDepth (ast : value) (depth d : nat) (keys : VisitorKeys) :
  astDepth ast keys = Ok d ->
  isSameAstDepth ast depth keys = Ok (Nat.eqb depth d).
Proof.
  unfold astDepth, isSameAstDepth. intros H.
  destruct (isSameAstDepth_visit_complete _ depth 0%nat d (Nat.le_0_l depth) H)
    as (cd & -> & Heq).
  simpl. rewrite Heq. reflexivity.
Qed.

Lemma isSameAstDepth_true (ast : value) (depth : nat) (keys : VisitorKeys) :
  isSameAstDepth ast depth keys = Ok true <-> astDepth ast keys = Ok depth.
Proof.
  split.
  - unfold astDepth, isSameAstDepth. intros H. bind_inv H.
    injection H as H. apply Nat.eqb_eq in H. subst x.
    apply isSameAstDepth_visit_sound; [lia | assumption].
  - intros H. rewrite (isSameAstDepth_astDepth _ _ _ _ H), Nat.eqb_refl. reflexivity.
Qed.

End Depth.

(** C5. A candidate call expression whose callee has a structural depth,
    under the matcher's traversal keys, other than the depth recorded for
    the signature's callee tests false; the purified comparison is never
    consulted. *)
Theorem test_false_on_depth_mismatch (E : Externals) (m : Matcher)
        (N c : value) (d : nat) :
  isCallExpression N = Ok (VBool true) ->
  get N "callee" = Ok c ->
  astDepth c (visitorKeys m) = Ok d ->
  d <> signatureCalleeDepth m ->
  test m N = Ok false.
Proof.
  intros Hcall Hc Hd Hne.
  unfold test, isCalleeMatched.
  rewrite Hcall. simpl. rewrite Hc. simpl.
  rewrite (isSameAstDepth_astDepth _ (signatureCalleeDepth m) _ _ Hd). simpl.
  replace (Nat.eqb (signatureCalleeDepth m) d) with false.
  - reflexivity.
  - symmetry. apply Nat.eqb_neq. congruence.
Qed.

(** [a.b()] as signature against the candidate [a.b.c()]. *)
Lemma test_false_on_depth_mismatch_witness :
  isCallExpression Sample.cand_a_b_c = Ok (VBool true)
  /\ @astDepth reference
       (Sample.member 11 (Sample.member 12 (Sample.ident 13 "a") (Sample.ident 14 "b"))
                      (Sample.ident 15 "c"))
       (visitorKeys m_a_b) = Ok 2%nat
  /\ signatureCalleeDepth m_a_b = 1%nat
  /\ @test reference m_a_b Sample.cand_a_b_c = Ok false.
Proof.
  split; [reflexivity|]. split; [reflexivity|]. split; [reflexivity|].
  apply (@test_false_on_depth_mismatch reference m_a_b Sample.cand_a_b_c
           (Sample.member 11 (Sample.member 12 (Sample.ident 13 "a") (Sample.ident 14 "b"))
                          (Sample.ident 15 "c")) 2%nat).
  - reflexivity.
  - reflexivity.
  - reflexivity.
  - vm_compute. discriminate.
Defined.

(** C7. A node sitting in the callee slot of a call expression is never
    classified as an argument: [matchArgument] answers [null] before the
    parent is even tested. *)
Theorem matchArgument_callee_absent (E : Externals) (m : Matcher)
        (cur parent c : value) :
  truthy cur = true ->
  get parent "type" = Ok (VStr CallExpression) ->
  get parent "callee" = Ok c ->
  strict_eq c cur = true ->
  matchArgument m cur parent = Ok Null.
Proof.
  intros Hcur Htype Hc Heq.
  assert (Hp : truthy parent = true).
  { destruct parent; simpl in *; try discriminate; reflexivity. }
  unfold matchArgument, isCalleeOfParent.
  rewrite Hp, Hcur, Htype. simpl. rewrite Hc. simpl. rewrite Heq. reflexivity.
Qed.

Lemma matchArgument_callee_absent_witness :
  truthy Sample.callee_f = true
  /\ get Sample.cand_f_1_2 "callee" = Ok Sample.callee_f
  /\ @matchArgument reference m_f_a_optb Sample.callee_f Sample.cand_f_1_2 = Ok Null.
Proof.
  split; [reflexivity|]. split; [reflexivity|].
  apply (@matchArgument_callee_absent reference m_f_a_optb
           Sample.callee_f Sample.cand_f_1_2 Sample.callee_f); reflexivity.
Defined.

(** ** Validated signatures *)

Lemma validateArg_descriptor (arg n : value) :
  validateArg arg = Ok n ->
  exists d, toArgumentSignature arg = Ok (Some d)
            /\ name d = n
            /\ identifiers arg = Ok (is_mandatory d)
            /\ (kind d = "mandatory" \/ kind d = "optional").
Proof.
  unfold validateArg, toArgumentSignature, identifiers. intros H.
  bind_inv H. rename x into t. rewrite Hx. simpl.
  destruct (strict_eq t (VStr Identifier)) eqn:Hid.
  - rewrite H. simpl. eexists. repeat split; auto.
  - destruct (strict_eq t (VStr ArrayExpression)) eqn:Harr; [|discriminate].
    bind_inv H. rename x into els. rewrite Hx0. simpl.
    bind_inv H.
    destruct (negb (strict_eq x (VNum 1))); [discriminate|].
    bind_inv H. rename x0 into inner. rewrite Hx2. simpl.
    bind_inv H.
    destruct (negb (strict_eq x0 (VStr Identifier))); [discriminate|].
    rewrite H. simpl. eexists. repeat split; auto.
Qed.

Lemma forEach_args_descriptors (args : list value) :
  forall names names',
    forEach_args names args = Ok names' ->
    exists ds ids,
      map_with toArgumentSignature args = Ok (map Some ds)
      /\ filter_with identifiers args = Ok ids
      /\ length ids = length (filter is_mandatory ds)
      /\ length ds = length args
      /\ Forall known_kind ds.
Proof.
  induction args as [|arg tl IH]; simpl; intros names names' H.
  - exists [], []. repeat split; auto.
  - bind_inv H. unfold validateApiExpression_step in Hx.
    bind_inv Hx. apply validateArg_descriptor in Hx0.
    destruct Hx0 as (d & Hd & _ & Hid & Hk).
    destruct (IH _ _ H) as (ds & ids & Hm & Hf & Hlen & Hlen' & Hall).
    exists (d :: ds), (if is_mandatory d then arg :: ids else ids).
    rewrite Hd, Hm, Hid, Hf. simpl.
    repeat split; auto.
    destruct (is_mandatory d); simpl; congruence.
Qed.

Lemma somes_map_Some {A : Type} (l : list A) : somes (map Some l) = l.
Proof. induction l; simpl; congruence. Qed.

Lemma known_kind_count (ds : list ArgumentSignature) :
  Forall known_kind ds ->
  length ds = (length (filter is_mandatory ds) + length (filter is_optional ds))%nat.
Proof.
  induction 1 as [|d tl [Hk|Hk] _ IH]; simpl; auto.
  - replace (is_mandatory d) with true by (unfold is_mandatory; now rewrite Hk).
    replace (is_optional d) with false by (unfold is_optional; now rewrite Hk).
    simpl. lia.
  - replace (is_mandatory d) with false by (unfold is_mandatory; now rewrite Hk).
    replace (is_optional d) with true by (unfold is_optional; now rewrite Hk).
    simpl. lia.
Qed.

(** What construction guarantees about a matcher. *)
Lemma constructed_facts (E : Externals) (tree ast : value) (opts : Options) (m : Matcher) :
  extractExpressionFrom tree = Ok ast ->
  Matcher_new ast opts = Ok m ->
  signatureAst m = ast
  /\ isCallExpression ast = Ok (VBool true)
  /\ argumentSignatures m = Ok (map Some (declared m))
  /\ numMinArgs m = Z.of_nat (length (filter is_mandatory (declared m)))
  /\ numMaxArgs m = Z.of_nat (length (declared m))
  /\ Forall known_kind (declared m)
  /\ exists callee, get ast "callee" = Ok callee
                    /\ astDepth callee (visitorKeys m) = Ok (signatureCalleeDepth m).
Proof.
  intros Hex Hnew.
  unfold extractExpressionFrom in Hex.
  bind_split Hex as body Hbody. bind_split Hex as stmt Hstmt. bind_split Hex as st Hst.
  destruct (negb (strict_eq st (VStr ExpressionStatement))); [discriminate|].
  bind_split Hex as expression Hexpr. bind_split Hex as u Hval. injection Hex as <-.
  unfold validateApiExpression in Hval.
  bind_split Hval as t Htype.
  destruct (strict_eq t (VStr CallExpression)) eqn:Ht; [simpl in Hval|discriminate].
  apply strict_eq_VStr in Ht. subst t.
  bind_split Hval as a Ha. bind_split Hval as args Hargs. bind_split Hval as names Hnames.
  clear Hval.
  destruct (forEach_args_descriptors _ _ _ Hnames)
    as (ds & ids & Hm & Hf & Hlen & Hlen' & Hall).
  unfold Matcher_new in Hnew.
  bind_split Hnew as callee Hcallee. bind_split Hnew as depth Hdepth.
  bind_split Hnew as a' Ha'. rewrite Ha in Ha'. injection Ha' as <-.
  bind_split Hnew as args' Hargs'. rewrite Hargs in Hargs'. injection Hargs' as <-.
  bind_split Hnew as ids' Hids'. rewrite Hf in Hids'. injection Hids' as <-.
  injection Hnew as <-.
  assert (Hsigs : argumentSignatures
                    {| visitorKeys := match opt_visitorKeys opts with
                                      | Some k => k
                                      | None => estraverse_VisitorKeys
                                      end;
                       signatureAst := expression;
                       signatureCalleeDepth := depth;
                       numMaxArgs := Z.of_nat (length args);
                       numMinArgs := Z.of_nat (length ids) |} = Ok (map Some ds)).
  { unfold argumentSignatures. simpl. rewrite Ha. simpl. rewrite Hargs. simpl. exact Hm. }
  unfold declared. rewrite Hsigs, somes_map_Some. simpl.
  repeat split; auto.
  - unfold isCallExpression.
    assert (Hta : truthy expression = true).
    { destruct expression; simpl in *; try discriminate; reflexivity. }
    rewrite Hta, Htype. reflexivity.
  - eauto.
Qed.

(** Every matcher [createMatcher] returns is constructed from a validated
    call expression. *)
Lemma createMatcher_constructed (E : Externals) (signatureStr : string)
      (options : option Options) (m : Matcher) :
  createMatcher signatureStr options = Ok m ->
  exists tree ast opts,
    esprima_parse signatureStr = Ok tree
    /\ extractExpressionFrom tree = Ok ast
    /\ Matcher_new ast opts = Ok m.
Proof.
  unfold createMatcher. intros H.
  bind_split H as tree Htree. bind_split H as ast Hast.
  eauto 6.
Qed.

(** ** The assignment of descriptors *)

Lemma mandatory_not_optional (d : ArgumentSignature) :
  is_mandatory d = true -> is_optional d = false.
Proof.
  unfold is_mandatory, is_optional. intros H.
  apply String.eqb_eq in H. rewrite H. reflexivity.
Qed.

(** The accumulation of [reduce] is the walk [assigned]. *)
Lemma reduce_assigned (ds : list ArgumentSignature) :
  forall (filled : Z) (accum : list ArgumentSignature),
    exists left,
      reduce (filled, accum) (map Some ds) = Ok (left, accum ++ assigned ds filled).
Proof.
  induction ds as [|d tl IH]; simpl; intros filled accum.
  - exists filled. rewrite app_nil_r. reflexivity.
  - fold (is_mandatory d). fold (is_optional d).
    destruct (is_mandatory d) eqn:Hm.
    + rewrite (mandatory_not_optional _ Hm). simpl.
      destruct (IH filled (accum ++ [d])) as (left & ->).
      exists left. rewrite <- app_assoc. reflexivity.
    + destruct (is_optional d && (0 <? filled)) eqn:Ho; simpl.
      * destruct (IH (filled - 1) (accum ++ [d])) as (left & ->).
        exists left. rewrite <- app_assoc. reflexivity.
      * apply IH.
Qed.

(** Within the bounds of [test], the assignment has one descriptor per
    argument: all the mandatory ones and as many optional ones as slots
    are filled. *)
Lemma assigned_length (ds : list ArgumentSignature) : forall filled,
  Forall known_kind ds ->
  0 <= filled <= Z.of_nat (length (filter is_optional ds)) ->
  Z.of_nat (length (assigned ds filled))
  = Z.of_nat (length (filter is_mandatory ds)) + filled.
Proof.
  induction ds as [|d tl IH]; intros filled Hk Hb; [simpl in *; lia|].
  inversion Hk as [|d' tl' Hd Htl]; subst.
  cbn [assigned filter] in *.
  destruct (is_mandatory d) eqn:Hm.
  - rewrite (mandatory_not_optional _ Hm) in Hb.
    specialize (IH filled Htl Hb). cbn [length]. lia.
  - assert (Ho : is_optional d = true).
    { destruct Hd as [Hd|Hd]; unfold is_mandatory, is_optional in *;
        rewrite Hd in *; [discriminate | reflexivity]. }
    rewrite Ho in *. cbn [length andb] in *.
    destruct (Z.ltb_spec 0 filled) as [Hlt|Hge].
    + assert (Hb' : 0 <= filled - 1 <= Z.of_nat (length (filter is_optional tl))) by lia.
      specialize (IH (filled - 1) Htl Hb'). cbn [length]. lia.
    + apply IH; [assumption | lia].
Qed.

Lemma index_from_absent (args : list value) (cur : value) : forall i,
  forallb (fun x => negb (strict_eq x cur)) args = true ->
  index_from i args cur = -1.
Proof.
  induction args as [|x tl IH]; simpl; intros i H; [reflexivity|].
  apply andb_true_iff in H. destruct H as [Hx Htl].
  apply negb_true_iff in Hx. rewrite Hx. apply IH. exact Htl.
Qed.

Lemma test_true_call (E : Externals) (m : Matcher) (N : value) :
  test m N = Ok true -> isCallExpression N = Ok (VBool true).
Proof.
  unfold test, isCalleeMatched. intros H.
  bind_inv H. destruct x; [|discriminate]. clear H.
  bind_inv Hx. destruct (truthy x) eqn:Hc; [|discriminate].
  rewrite (truthy_VBool_true _ _ Hx0 Hc) in Hx0. exact Hx0.
Qed.

Lemma call_is_object (N : value) :
  isCallExpression N = Ok (VBool true) ->
  truthy N = true /\ get N "type" = Ok (VStr CallExpression).
Proof.
  unfold isCallExpression. destruct (truthy N) eqn:HN.
  - intros H. bind_inv H. injection H as H. apply strict_eq_VStr in H.
    subst. auto.
  - intros H. injection H as ->. discriminate.
Qed.

(** On a parent that matches and holds its arguments in an array,
    [matchArgument] is the callee check followed by a lookup in the
    assignment. *)
Lemma matchArgument_on_match (E : Externals) (tree ast : value) (opts : Options)
      (m : Matcher) (cur parent : value) (r : nat) (args : list value) :
  extractExpressionFrom tree = Ok ast ->
  Matcher_new ast opts = Ok m ->
  test m parent = Ok true ->
  get parent "arguments" = Ok (VArray r args) ->
  matchArgument m cur parent =
    (c <- isCalleeOfParent cur parent ;;
     if truthy c then Ok Null
     else Ok (element_at
                (assigned (declared m) (Z.of_nat (length args) - numMinArgs m))
                (index_from 0 args cur))).
Proof.
  intros Hex Hnew Htest Hargs.
  destruct (constructed_facts _ _ _ _ _ Hex Hnew) as (_ & _ & Hsigs & _).
  unfold matchArgument.
  destruct (isCalleeOfParent cur parent) as [c|e]; simpl; [|reflexivity].
  destruct (truthy c); [reflexivity|].
  rewrite Htest. simpl. rewrite Hargs. simpl. rewrite Hsigs. simpl.
  destruct (reduce_assigned (declared m)
              (Z.of_nat (length args) - numMinArgs m) []) as (left & ->).
  reflexivity.
Qed.

Lemma isCalleeOfParent_false (cur parent c : value) :
  isCallExpression parent = Ok (VBool true) ->
  get parent "callee" = Ok c ->
  strict_eq c cur = false ->
  exists v, isCalleeOfParent cur parent = Ok v /\ truthy v = false.
Proof.
  intros Hcall Hc Hne.
  destruct (call_is_object _ Hcall) as (Hp & Ht).
  unfold isCalleeOfParent. rewrite Hp.
  destruct (truthy cur) eqn:Hcur.
  - rewrite Ht. simpl. rewrite Hc. simpl. rewrite Hne. eauto.
  - eauto.
Qed.

(** C2. On a parent the signature matches, [matchArgument] returns the
    descriptor found at the candidate argument's position in the list
    obtained by walking the declared descriptors in order, every mandatory
    one emitted, an optional one emitted only while the number of filled
    optional slots (argument count minus [numMinArgs]) is positive. *)
Theorem matchArgument_assignment (E : Externals) (tree ast : value) (opts : Options)
        (m : Matcher) (cur parent c : value) (r : nat) (args : list value) :
  extractExpressionFrom tree = Ok ast ->
  Matcher_new ast opts = Ok m ->
  test m parent = Ok true ->
  get parent "arguments" = Ok (VArray r args) ->
  get parent "callee" = Ok c ->
  strict_eq c cur = false ->
  matchArgument m cur parent =
    Ok (element_at
          (assigned (declared m) (Z.of_nat (length args) - numMinArgs m))
          (index_from 0 args cur)).
Proof.
  intros Hex Hnew Htest Hargs Hc Hne.
  rewrite (matchArgument_on_match _ _ _ _ _ cur _ _ _ Hex Hnew Htest Hargs).
  destruct (isCalleeOfParent_false _ _ _ (test_true_call _ _ _ Htest) Hc Hne)
    as (v & -> & Hv).
  simpl. rewrite Hv. reflexivity.
Qed.

(** [f(a, [b])]: in [f(1)] the argument is [a]; in [f(1, 2)] the arguments
    are [a] and [b]. *)
Lemma matchArgument_assignment_witness :
  @test reference m_f_a_optb Sample.cand_f_1 = Ok true
  /\ @test reference m_f_a_optb Sample.cand_f_1_2 = Ok true
  /\ @matchArgument reference m_f_a_optb Sample.one Sample.cand_f_1
     = Ok (Descriptor {| name := VStr "a"; kind := "mandatory" |})
  /\ @matchArgument reference m_f_a_optb Sample.one Sample.cand_f_1_2
     = Ok (Descriptor {| name := VStr "a"; kind := "mandatory" |})
  /\ @matchArgument reference m_f_a_optb Sample.two Sample.cand_f_1_2
     = Ok (Descriptor {| name := VStr "b"; kind := "optional" |}).
Proof.
  split; [reflexivity|]. split; [reflexivity|]. split; [|split].
  - rewrite (matchArgument_assignment reference Sample.sig_f_a_optb
               Sample.call_f_a_optb no_options m_f_a_optb
               Sample.one Sample.cand_f_1 Sample.callee_f 10 [Sample.one]
               eq_refl eq_refl eq_refl eq_refl eq_refl eq_refl).
    reflexivity.
  - rewrite (matchArgument_assignment reference Sample.sig_f_a_optb
               Sample.call_f_a_optb no_options m_f_a_optb
               Sample.one Sample.cand_f_1_2 Sample.callee_f 10 [Sample.one; Sample.two]
               eq_refl eq_refl eq_refl eq_refl eq_refl eq_refl).
    reflexivity.
  - rewrite (matchArgument_assignment reference Sample.sig_f_a_optb
               Sample.call_f_a_optb no_options m_f_a_optb
               Sample.two Sample.cand_f_1_2 Sample.callee_f 10 [Sample.one; Sample.two]
               eq_refl eq_refl eq_refl eq_refl eq_refl eq_refl).
    reflexivity.
Defined.

Lemma get_truthy (v : value) (k : string) :
  truthy v = true -> exists x, get v k = Ok x.
Proof.
  destruct v; simpl; intros H; try discriminate; eauto.
  - destruct (String.eqb k "length"); eauto.
  - destruct (String.eqb k "length"); eauto.
  - destruct (lookup k props); eauto.
Qed.

Lemma isCalleeOfParent_Ok (cur parent : value) :
  exists v, isCalleeOfParent cur parent = Ok v.
Proof.
  unfold isCalleeOfParent.
  destruct (truthy parent) eqn:Hp; [|eauto].
  destruct (truthy cur); [|eauto].
  destruct (get_truthy parent "type" Hp) as (t & ->). simpl.
  destruct (strict_eq t (VStr CallExpression)); [|eauto].
  destruct (get_truthy parent "callee" Hp) as (c & ->). simpl. eauto.
Qed.

(** C8. When the parent matches and the candidate is none of the
    elements of its argument list, [matchArgument] returns an absent
    answer and raises nothing. *)
Theorem matchArgument_unrelated_absent (E : Externals) (tree ast : value)
        (opts : Options) (m : Matcher) (cur parent : value)
        (r : nat) (args : list value) :
  extractExpressionFrom tree = Ok ast ->
  Matcher_new ast opts = Ok m ->
  test m parent = Ok true ->
  get parent "arguments" = Ok (VArray r args) ->
  forallb (fun x => negb (strict_eq x cur)) args = true ->
  exists a, matchArgument m cur parent = Ok a /\ absent a.
Proof.
  intros Hex Hnew Htest Hargs Hnone.
  rewrite (matchArgument_on_match _ _ _ _ _ cur _ _ _ Hex Hnew Htest Hargs).
  destruct (isCalleeOfParent_Ok cur parent) as (v & ->). simpl.
  destruct (truthy v).
  - exists Null. split; [reflexivity | left; reflexivity].
  - rewrite (index_from_absent _ _ _ Hnone).
    exists Undefined. split; [reflexivity | right; reflexivity].
Qed.

(** The literal [2] is no argument of [f(1)]. *)
Lemma matchArgument_unrelated_absent_witness :
  @test reference m_f_a_optb Sample.cand_f_1 = Ok true
  /\ forallb (fun x => negb (strict_eq x Sample.two)) [Sample.one] = true
  /\ exists a, @matchArgument reference m_f_a_optb Sample.two Sample.cand_f_1 = Ok a
               /\ absent a.
Proof.
  split; [reflexivity|]. split; [reflexivity|].
  apply (matchArgument_unrelated_absent reference Sample.sig_f_a_optb
           Sample.call_f_a_optb no_options m_f_a_optb
           Sample.two Sample.cand_f_1 10 [Sample.one]); reflexivity.
Defined.

(** ** The test *)

Lemma isCallExpression_cases (N c : value) :
  isCallExpression N = Ok c -> c = VBool true \/ truthy c = false.
Proof.
  intros H. destruct (truthy c) eqn:Hc; [left|right; reflexivity].
  exact (truthy_VBool_true _ _ H Hc).
Qed.

Lemma isCalleeMatched_not_call (E : Externals) (sig N : value) (d : nat)
      (keys : VisitorKeys) :
  isCallExpression N <> Ok (VBool true) ->
  isCalleeMatched sig d N keys = Ok false.
Proof.
  intros Hne. unfold isCalleeMatched.
  destruct (isCallExpression_Ok N) as (c & Hc). rewrite Hc. simpl.
  destruct (isCallExpression_cases _ _ Hc) as [->|Hf]; [contradiction|].
  rewrite Hf. reflexivity.
Qed.

Lemma test_not_call (E : Externals) (m : Matcher) (N : value) :
  isCallExpression N <> Ok (VBool true) -> test m N = Ok false.
Proof.
  intros Hne. unfold test.
  rewrite (isCalleeMatched_not_call _ _ _ _ _ Hne). reflexivity.
Qed.

Lemma isCalleeMatched_true (E : Externals) (m : Matcher) (N : value) :
  isCalleeMatched (signatureAst m) (signatureCalleeDepth m) N (visitorKeys m) = Ok true
  <-> isCallExpression N = Ok (VBool true)
      /\ callee_depth_agrees m N
      /\ purified_callee_equal m N.
Proof.
  unfold callee_depth_agrees, purified_callee_equal. split.
  - unfold isCalleeMatched. intros H.
    bind_split H as c Hc.
    destruct (truthy c) eqn:Htc; simpl in H; [|discriminate].
    rewrite (truthy_VBool_true _ _ Hc Htc) in Hc.
    bind_split H as callee Hcallee. bind_split H as same Hsame.
    destruct same; simpl in H; [|discriminate].
    apply isSameAstDepth_true in Hsame.
    bind_split H as sc Hsc. bind_split H as p1 Hp1.
    bind_split H as nc Hnc. bind_split H as p2 Hp2.
    injection H as H.
    rewrite Hcallee in Hnc. injection Hnc as <-.
    split; [assumption|]. split.
    + exists callee. auto.
    + exists callee, sc, p1, p2. auto.
  - intros (Hcall & (c & Hc & Hd) & (c' & sc & p1 & p2 & Hc' & Hsc & Hp1 & Hp2 & Heq)).
    rewrite Hc in Hc'. injection Hc' as <-.
    unfold isCalleeMatched. rewrite Hcall. simpl. rewrite Hc. simpl.
    apply isSameAstDepth_true in Hd. rewrite Hd. simpl.
    rewrite Hsc. simpl. rewrite Hp1. simpl. rewrite Hp2. simpl.
    rewrite Heq. reflexivity.
Qed.

Lemma test_true (E : Externals) (m : Matcher) (N : value) :
  test m N = Ok true
  <-> isCalleeMatched (signatureAst m) (signatureCalleeDepth m) N (visitorKeys m) = Ok true
      /\ exists n, argument_count N n /\ numMinArgs m <= n <= numMaxArgs m.
Proof.
  unfold argument_count. split.
  - unfold test. intros H.
    bind_split H as cm Hcm. destruct cm; [|discriminate].
    bind_split H as a Ha. bind_split H as numArgs Hlen.
    bind_split H as lo Hlo. destruct lo; [|discriminate].
    destruct numArgs; simpl in Hlo, H; try discriminate.
    injection Hlo as Hlo. injection H as H.
    apply Z.leb_le in Hlo, H.
    split; [assumption|]. exists n. split; [eauto | lia].
  - intros (Hcm & n & (a & Ha & Hlen) & Hlo & Hhi).
    unfold test. rewrite Hcm. simpl. rewrite Ha. simpl. rewrite Hlen. simpl.
    apply Z.leb_le in Hlo, Hhi. rewrite Hlo. simpl. rewrite Hhi. reflexivity.
Qed.

(** C1, as the code has it.  For a matcher built from a valid signature
    with [k] mandatory and [o] optional parameters, [test] is true exactly
    when the candidate is a call expression, its callee has the structural
    depth recorded for the signature's callee, the purified callees are
    deeply equal, and the argument count lies in [[k, k + o]]; on anything
    that is not a call expression [test] is false. *)
Theorem test_characterisation (E : Externals) (tree ast : value) (opts : Options)
        (m : Matcher) (N : value) :
  extractExpressionFrom tree = Ok ast ->
  Matcher_new ast opts = Ok m ->
  let k := Z.of_nat (length (filter is_mandatory (declared m))) in
  let o := Z.of_nat (length (filter is_optional (declared m))) in
  (test m N = Ok true <->
   isCallExpression N = Ok (VBool true)
   /\ callee_depth_agrees m N
   /\ purified_callee_equal m N
   /\ exists n, argument_count N n /\ k <= n <= k + o)
  /\ (isCallExpression N <> Ok (VBool true) -> test m N = Ok false).
Proof.
  intros Hex Hnew k o.
  destruct (constructed_facts _ _ _ _ _ Hex Hnew)
    as (_ & _ & _ & Hmin & Hmax & Hkinds & _).
  assert (Hmax' : numMaxArgs m = k + o).
  { rewrite Hmax, (known_kind_count _ Hkinds). unfold k, o. lia. }
  split; [|apply test_not_call].
  rewrite test_true, isCalleeMatched_true, Hmax', Hmin. fold k. tauto.
Qed.

Lemma test_characterisation_witness :
  extractExpressionFrom Sample.sig_f_a_optb = Ok Sample.call_f_a_optb
  /\ @Matcher_new reference Sample.call_f_a_optb no_options = Ok m_f_a_optb
  /\ @test reference m_f_a_optb Sample.cand_f_1_2 = Ok true
  /\ @test reference m_f_a_optb Sample.one = Ok false.
Proof.
  split; [reflexivity|]. split; [reflexivity|].
  pose proof (test_characterisation reference Sample.sig_f_a_optb
                Sample.call_f_a_optb no_options m_f_a_optb) as T.
  split.
  - apply (proj1 (T Sample.cand_f_1_2 eq_refl eq_refl)).
    split; [reflexivity|]. split.
    + exists Sample.callee_f. split; reflexivity.
    + split.
      * exists Sample.callee_f, (Sample.ident 4 "f"),
          (Reference.purify (Sample.ident 4 "f")), (Reference.purify Sample.callee_f).
        repeat split; reflexivity.
      * exists 2. split.
        -- exists (VArray 10 [Sample.one; Sample.two]). split; reflexivity.
        -- vm_compute. split; discriminate.
  - apply (proj2 (T Sample.one eq_refl eq_refl)).
    vm_compute. discriminate.
Defined.

(** With traversal keys that follow attached comments, the call [f(1)]
    whose callee identifier carries a block comment is a call expression,
    its purified callee equals the signature's, and it has one argument,
    within [[1, 2]], yet [test] is false: the callee is two levels deep
    where the signature's is none. *)
Lemma commented_callee_refutes_iff :
  @createMatcher reference "f(a, [b])" (Some comment_options) = Ok m_f_a_optb_comments
  /\ length (filter is_mandatory (declared m_f_a_optb_comments)) = 1%nat
  /\ length (filter is_optional (declared m_f_a_optb_comments)) = 1%nat
  /\ ~ @test_iff_call_callee_count reference m_f_a_optb_comments 1 1
        Sample.cand_commented_f_1.
Proof.
  split; [reflexivity|]. split; [reflexivity|]. split; [reflexivity|].
  unfold test_iff_call_callee_count. intros [_ H].
  assert (Ht : @test reference m_f_a_optb_comments Sample.cand_commented_f_1 = Ok true).
  { apply H. split; [reflexivity|]. split.
    - exists Sample.callee_f_commented, (Sample.ident 4 "f"),
        (Reference.purify (Sample.ident 4 "f")),
        (Reference.purify Sample.callee_f_commented).
      repeat split; reflexivity.
    - exists 1. split.
      + exists (VArray 10 [Sample.one]). split; reflexivity.
      + lia. }
  vm_compute in Ht. discriminate.
Qed.

(** ** Completion of the queries *)

Lemma assigned_incl (ds : list ArgumentSignature) : forall filled d,
  In d (assigned ds filled) -> In d ds.
Proof.
  induction ds as [|x tl IH]; simpl; intros filled d H; [exact H|].
  destruct (is_mandatory x).
  - destruct H as [<-|H]; [left; reflexivity | right; eapply IH; exact H].
  - destruct (is_optional x && (0 <? filled)).
    + destruct H as [<-|H]; [left; reflexivity | right; eapply IH; exact H].
    + right. eapply IH; exact H.
Qed.

Lemma test_returns (E : Externals) (m : Matcher) (N sp : value) :
  calleeAst m = Ok sp ->
  well_formed_candidate m N ->
  exists b, test m N = Ok b.
Proof.
  intros Hsp [Hne | (c & d & p & r & args & Hc & Hd & Hp & Hargs)].
  - exists false. apply test_not_call. exact Hne.
  - destruct (isCallExpression_Ok N) as (v & Hv).
    destruct (isCallExpression_cases _ _ Hv) as [->|Hf].
    + unfold test, isCalleeMatched. rewrite Hv. simpl. rewrite Hc. simpl.
      rewrite (isSameAstDepth_astDepth _ (signatureCalleeDepth m) _ _ Hd). simpl.
      destruct (Nat.eqb (signatureCalleeDepth m) d); simpl; [|eauto].
      unfold calleeAst in Hsp. bind_split Hsp as sc Hsc.
      rewrite Hsc. simpl. rewrite Hsp. simpl. rewrite Hp. simpl.
      destruct (deepEqual sp p); [|eauto].
      rewrite Hargs. simpl.
      destruct (numMinArgs m <=? Z.of_nat (length args)); simpl; eauto.
    + exists false. apply test_not_call. rewrite Hv. intros Heq.
      injection Heq as ->. discriminate.
Qed.

Lemma element_at_cases (l : list ArgumentSignature) (i : Z) :
  element_at l i = Undefined
  \/ exists d, element_at l i = Descriptor d /\ In d l.
Proof.
  unfold element_at. destruct (i <? 0); [left; reflexivity|].
  destruct (nth_error l (Z.to_nat i)) as [d|] eqn:Hd; [|left; reflexivity].
  right. exists d. split; [reflexivity|]. eapply nth_error_In. exact Hd.
Qed.

Lemma matchArgument_not_call_null (E : Externals) (m : Matcher) (cur parent : value) :
  isCallExpression parent <> Ok (VBool true) ->
  matchArgument m cur parent = Ok Null.
Proof.
  intros Hne. unfold matchArgument.
  destruct (isCalleeOfParent_Ok cur parent) as (v & ->). simpl.
  destruct (truthy v); [reflexivity|].
  rewrite (test_not_call _ _ _ Hne). reflexivity.
Qed.

(** C9, as the code has it.  For a constructed matcher whose signature
    callee can be purified: on every candidate that is not a call
    expression [test] returns false and [matchArgument] returns [null];
    on every call expression whose callee the libraries accept and whose
    arguments are held in an array [test] returns a boolean and
    [matchArgument] returns an absent answer or one of the declared
    descriptors.  Nothing is raised in either case. *)
Theorem queries_return (E : Externals) (tree ast : value) (opts : Options)
        (m : Matcher) (sp : value) :
  extractExpressionFrom tree = Ok ast ->
  Matcher_new ast opts = Ok m ->
  calleeAst m = Ok sp ->
  (forall N, well_formed_candidate m N -> exists b, test m N = Ok b)
  /\ (forall N, isCallExpression N <> Ok (VBool true) -> test m N = Ok false)
  /\ (forall cur parent, isCallExpression parent <> Ok (VBool true) ->
                         matchArgument m cur parent = Ok Null)
  /\ (forall cur parent, well_formed_candidate m parent ->
                         exists a, matchArgument m cur parent = Ok a
                                   /\ (absent a
                                       \/ exists d, a = Descriptor d
                                                    /\ In d (declared m))).
Proof.
  intros Hex Hnew Hsp.
  split; [intros N; apply test_returns with (sp := sp); assumption|].
  split; [intros N; apply test_not_call|].
  split; [intros cur parent; apply matchArgument_not_call_null|].
  intros cur parent Hwf.
  destruct (test_returns _ _ _ _ Hsp Hwf) as (b & Hb).
  destruct b.
  - destruct Hwf as [Hne | (c & d & p & r & args & _ & _ & _ & Hargs)].
    + elim Hne. exact (test_true_call _ _ _ Hb).
    + rewrite (matchArgument_on_match _ _ _ _ _ cur _ _ _ Hex Hnew Hb Hargs).
      destruct (isCalleeOfParent_Ok cur parent) as (v & ->). simpl.
      destruct (truthy v).
      * exists Null. split; [reflexivity | left; left; reflexivity].
      * eexists. split; [reflexivity|].
        destruct (element_at_cases
                    (assigned (declared m) (Z.of_nat (length args) - numMinArgs m))
                    (index_from 0 args cur)) as [->|(x & -> & Hx)].
        -- left. right. reflexivity.
        -- right. exists x. split; [reflexivity|].
           eapply assigned_incl. exact Hx.
  - exists Null. split; [|left; left; reflexivity].
    unfold matchArgument.
    destruct (isCalleeOfParent_Ok cur parent) as (v & ->). simpl.
    destruct (truthy v); [reflexivity|].
    rewrite Hb. reflexivity.
Qed.

Lemma queries_return_witness :
  extractExpressionFrom Sample.sig_f_a_optb = Ok Sample.call_f_a_optb
  /\ @Matcher_new reference Sample.call_f_a_optb no_options = Ok m_f_a_optb
  /\ @calleeAst reference m_f_a_optb = Ok (Reference.purify (Sample.ident 4 "f"))
  /\ (exists b, @test reference m_f_a_optb Sample.cand_a_b = Ok b)
  /\ @test reference m_f_a_optb VNull = Ok false
  /\ @matchArgument reference m_f_a_optb Sample.one VUndefined = Ok Null
  /\ (exists a, @matchArgument reference m_f_a_optb Sample.two Sample.cand_f_1_2 = Ok a
                /\ (absent a
                    \/ exists d, a = Descriptor d /\ In d (declared m_f_a_optb))).
Proof.
  split; [reflexivity|]. split; [reflexivity|]. split; [reflexivity|].
  destruct (queries_return reference Sample.sig_f_a_optb Sample.call_f_a_optb
              no_options m_f_a_optb (Reference.purify (Sample.ident 4 "f"))
              eq_refl eq_refl eq_refl) as (T & F & Z & M).
  split; [|split; [|split]].
  - apply T. right.
    exists (Sample.member 11 (Sample.ident 13 "a") (Sample.ident 14 "b")), 1%nat,
      (Reference.purify (Sample.member 11 (Sample.ident 13 "a") (Sample.ident 14 "b"))),
      10%nat, [].
    repeat split; reflexivity.
  - apply F. vm_compute. discriminate.
  - apply Z. vm_compute. discriminate.
  - apply M. right.
    exists Sample.callee_f, 0%nat, (Reference.purify Sample.callee_f), 10%nat,
      [Sample.one; Sample.two].
    repeat split; reflexivity.
Defined.

(** A call expression without an [arguments] field whose callee matches:
    [test] raises a [TypeError] on reading [length] of [undefined], and so
    does [matchArgument]. *)
Lemma malformed_call_raises :
  @createMatcher reference "f()" None = Ok m_f
  /\ isCallExpression Sample.cand_f_no_arguments = Ok (VBool true)
  /\ @test reference m_f Sample.cand_f_no_arguments = Throw TypeError
  /\ @matchArgument reference m_f Sample.one Sample.cand_f_no_arguments = Throw TypeError
  /\ ~ (exists b, @test reference m_f Sample.cand_f_no_arguments = Ok b).
Proof.
  split; [reflexivity|]. split; [reflexivity|]. split; [reflexivity|].
  split; [reflexivity|].
  intros (b & Hb). vm_compute in Hb. discriminate.
Qed.

(** ** Validation of the signature *)

Lemma hasOwn_assign (names : list (string * value)) (k k' : string) (v : value) :
  k <> "__proto__" ->
  hasOwn (assign names k v) k' = (String.eqb k' k || hasOwn names k').
Proof.
  intros Hk. unfold assign.
  destruct (String.eqb_spec k "__proto__") as [->|_]; [contradiction|].
  unfold hasOwn. simpl.
  destruct (String.eqb k' k); reflexivity.
Qed.

(** Once a name is recorded in [names], the first later argument that
    resolves to it ends the validation with the duplicate error, whatever
    follows it. *)
Lemma forEach_args_duplicate (pre post : list value) (arg : value) (n : string) :
  forall names names',
    forEach_args names pre = Ok names' ->
    hasOwn names' n = true ->
    validateArg arg = Ok (VStr n) ->
    forEach_args names (pre ++ arg :: post)
    = Throw (Error (duplicatedArgMessage ++ n)%string).
Proof.
  induction pre as [|a tl IH]; simpl; intros names names' Hpre Hown Harg.
  - injection Hpre as ->.
    unfold validateApiExpression_step. rewrite Harg. simpl. rewrite Hown. reflexivity.
  - bind_split Hpre as names1 Hstep. rewrite Hstep. simpl.
    apply IH with (names' := names'); assumption.
Qed.

(** A name other than [__proto__] that an argument resolved to is
    recorded. *)
Lemma forEach_args_records (pre : list value) (n : string) :
  forall names names',
    n <> "__proto__" ->
    forEach_args names pre = Ok names' ->
    hasOwn names n = true \/ (exists a, In a pre /\ validateArg a = Ok (VStr n)) ->
    hasOwn names' n = true.
Proof.
  induction pre as [|a tl IH]; simpl; intros names names' Hn Hpre Hsrc.
  - injection Hpre as <-. destruct Hsrc as [H|(a & [] & _)]. exact H.
  - bind_split Hpre as names1 Hstep.
    apply IH with (names := names1); [assumption|assumption|].
    unfold validateApiExpression_step in Hstep.
    bind_split Hstep as v Hv. bind_split Hstep as k Hk.
    destruct (hasOwn names k) eqn:Hown; [discriminate|].
    injection Hstep as <-.
    destruct v; simpl in Hk; try discriminate. injection Hk as ->.
    destruct Hsrc as [H|(b & [->|Hin] & Hb)].
    + left. unfold assign. destruct (String.eqb k "__proto__"); [exact H|].
      unfold hasOwn in *. simpl. destruct (String.eqb n k); [reflexivity|exact H].
    + rewrite Hv in Hb. injection Hb as ->.
      left. rewrite hasOwn_assign by assumption. rewrite String.eqb_refl. reflexivity.
    + right. eauto.
Qed.

(** Duplicate names other than [__proto__]: the call expression is
    rejected at the first argument whose name was seen before, with the
    duplicate error carrying that name. *)
Lemma validateApiExpression_duplicate (callExpression : value) (r : nat)
      (pre post : list value) (earlier arg : value) (n : string)
      (names : list (string * value)) :
  get callExpression "type" = Ok (VStr CallExpression) ->
  get callExpression "arguments" = Ok (VArray r (pre ++ arg :: post)) ->
  forEach_args [] pre = Ok names ->
  In earlier pre ->
  validateArg earlier = Ok (VStr n) ->
  validateArg arg = Ok (VStr n) ->
  n <> "__proto__" ->
  validateApiExpression callExpression
  = Throw (Error (duplicatedArgMessage ++ n)%string).
Proof.
  intros Ht Ha Hpre Hin Hearlier Harg Hn.
  unfold validateApiExpression. rewrite Ht. simpl. rewrite Ha. simpl.
  rewrite (forEach_args_duplicate pre post arg n [] names Hpre); [reflexivity| |assumption].
  apply (forEach_args_records pre n [] names Hn Hpre). right. eauto.
Qed.

(** [f(a, [a])]: construction fails with the duplicate error. *)
Lemma duplicate_f_a_opta :
  @createMatcher reference "f(a, [a])" None = Throw (Error "Duplicate argument name: a").
Proof. reflexivity. Qed.

(** C3 at [f(__proto__, __proto__)].  Both arguments resolve to the name
    [__proto__], yet validation accepts the signature and construction
    succeeds: the assignment [names[name] = name] reaches the [__proto__]
    setter of [Object.prototype] and records nothing, so the second
    [hasOwn] test is false again. *)
Theorem duplicate_proto_accepted :
  validateArg (Sample.ident 5 "__proto__") = Ok (VStr "__proto__")
  /\ validateArg (Sample.ident 6 "__proto__") = Ok (VStr "__proto__")
  /\ validateApiExpression Sample.call_f_proto_proto = Ok tt
  /\ exists m, @createMatcher reference "f(__proto__, __proto__)" None = Ok m.
Proof.
  split; [reflexivity|]. split; [reflexivity|]. split; [reflexivity|].
  eexists. reflexivity.
Qed.

(** A first statement that is no expression statement, or whose expression
    is no call expression, is rejected with the call-expression error. *)
Lemma extractExpressionFrom_not_statement (tree body statement t : value) :
  get tree "body" = Ok body ->
  get_first body = Ok statement ->
  get statement "type" = Ok t ->
  strict_eq t (VStr ExpressionStatement) = false ->
  extractExpressionFrom tree = Throw (Error notCallExprMessage).
Proof.
  intros Hb Hs Ht Hne. unfold extractExpressionFrom.
  rewrite Hb. simpl. rewrite Hs. simpl. rewrite Ht. simpl. rewrite Hne. reflexivity.
Qed.

Lemma extractExpressionFrom_not_call (tree body statement expression t : value) :
  get tree "body" = Ok body ->
  get_first body = Ok statement ->
  get statement "type" = Ok (VStr ExpressionStatement) ->
  get statement "expression" = Ok expression ->
  get expression "type" = Ok t ->
  strict_eq t (VStr CallExpression) = false ->
  extractExpressionFrom tree = Throw (Error notCallExprMessage).
Proof.
  intros Hb Hs Ht He Het Hne. unfold extractExpressionFrom, validateApiExpression.
  rewrite Hb. simpl. rewrite Hs. simpl. rewrite Ht. simpl. rewrite He. simpl.
  rewrite Het. simpl. rewrite Hne. reflexivity.
Qed.

(** C4 at the empty signature.  The program has no first statement;
    [statement.type] is read on [undefined] and construction ends with a
    [TypeError], not with the call-expression error. *)
Theorem absent_statement_type_error :
  get Sample.sig_empty "body" = Ok (VArray 1 [])
  /\ get_first (VArray 1 []) = Ok VUndefined
  /\ extractExpressionFrom Sample.sig_empty = Throw TypeError
  /\ @createMatcher reference "" None = Throw TypeError
  /\ extractExpressionFrom Sample.sig_empty <> Throw (Error notCallExprMessage).
Proof.
  split; [reflexivity|]. split; [reflexivity|]. split; [reflexivity|].
  split; [reflexivity|]. discriminate.
Qed.

(** ** The earlier implementation against the current one *)

Lemma optional_not_mandatory (d : ArgumentSignature) :
  is_optional d = true -> is_mandatory d = false.
Proof.
  unfold is_mandatory, is_optional. intros H.
  apply String.eqb_eq in H. rewrite H. reflexivity.
Qed.

Lemma assigned_all_optional (ds : list ArgumentSignature) : forall filled,
  forallb is_optional ds = true ->
  0 <= filled ->
  assigned ds filled = firstn (Z.to_nat filled) ds.
Proof.
  induction ds as [|d tl IH]; simpl; intros filled Hall Hpos.
  - rewrite firstn_nil. reflexivity.
  - apply andb_true_iff in Hall. destruct Hall as [Hd Htl].
    rewrite (optional_not_mandatory _ Hd), Hd. simpl.
    destruct (Z.ltb_spec 0 filled) as [Hlt|Hge].
    + rewrite IH by (assumption || lia).
      replace (Z.to_nat filled) with (S (Z.to_nat (filled - 1))) by lia.
      reflexivity.
    + rewrite IH by (assumption || lia).
      replace filled with 0 by lia. simpl. destruct tl; reflexivity.
Qed.

(** With the optional parameters declared last, the assignment is a
    prefix of the declaration. *)
Lemma assigned_optional_last (ds : list ArgumentSignature) : forall filled,
  Forall known_kind ds ->
  optional_last ds = true ->
  0 <= filled ->
  assigned ds filled
  = firstn (length (filter is_mandatory ds) + Z.to_nat filled) ds.
Proof.
  induction ds as [|d tl IH]; simpl; intros filled Hk Hlast Hpos.
  - rewrite firstn_nil. reflexivity.
  - inversion Hk as [|d' tl' Hd Htl]; subst.
    destruct (is_mandatory d) eqn:Hm.
    + simpl. rewrite IH by assumption. reflexivity.
    + assert (Ho : is_optional d = true).
      { destruct Hd as [Hd|Hd]; unfold is_mandatory, is_optional in *;
          rewrite Hd in *; [discriminate | reflexivity]. }
      assert (Hnone : filter is_mandatory tl = []).
      { clear -Hlast. induction tl as [|x tl IH]; simpl in *; [reflexivity|].
        apply andb_true_iff in Hlast. destruct Hlast as [Hx Htl].
        rewrite (optional_not_mandatory _ Hx). auto. }
      pose proof (assigned_all_optional (d :: tl) filled) as Hall.
      simpl in Hall. rewrite Hm, Ho in Hall. simpl in Hall.
      rewrite Hnone, Ho. simpl. apply Hall; assumption.
Qed.

Lemma index_from_bounds (l : list value) (x : value) : forall i,
  index_from i l x = -1 \/ i <= index_from i l x < i + Z.of_nat (length l).
Proof.
  induction l as [|y tl IH]; simpl; intros i; [left; reflexivity|].
  destruct (strict_eq y x).
  - right. lia.
  - destruct (IH (i + 1)) as [H|H]; [left; exact H | right; lia].
Qed.

Lemma map_with_nth_error {B : Type} (f : value -> result B) (l : list value) :
  forall (ys : list B) (i : nat) (x : value),
    map_with f l = Ok ys ->
    nth_error l i = Some x ->
    exists y, f x = Ok y /\ nth_error ys i = Some y.
Proof.
  induction l as [|a tl IH]; simpl; intros ys i x Hm Hn.
  - destruct i; discriminate.
  - bind_split Hm as y Hy. bind_split Hm as r Hr. injection Hm as <-.
    destruct i as [|i]; simpl in *.
    + injection Hn as <-. eauto.
    + eapply IH; eassumption.
Qed.

Lemma legacy_constructed (E : Externals) (ast : value) (m : Matcher)
      (m' : Legacy.Matcher) :
  Matcher_new ast no_options = Ok m ->
  Legacy.Matcher_new ast = Ok m' ->
  signatureAst m = ast
  /\ Legacy.signatureAst m' = ast
  /\ visitorKeys m = estraverse_VisitorKeys
  /\ Legacy.numMinArgs m' = numMinArgs m
  /\ Legacy.numMaxArgs m' = numMaxArgs m.
Proof.
  unfold Matcher_new, Legacy.Matcher_new. intros Hnew Hold.
  bind_split Hnew as callee Hcallee. bind_split Hnew as depth Hdepth.
  bind_split Hnew as a Ha. bind_split Hnew as args Hargs.
  bind_split Hnew as ids Hids. injection Hnew as <-.
  rewrite Ha in Hold. simpl in Hold. rewrite Hargs in Hold. simpl in Hold.
  rewrite Hids in Hold. simpl in Hold. injection Hold as <-.
  simpl. auto.
Qed.

Lemma legacy_isCalleeMatched (E : Externals) (ast callee N : value) (depth : nat)
      (b : bool) :
  isCallExpression ast = Ok (VBool true) ->
  get ast "callee" = Ok callee ->
  astDepth callee estraverse_VisitorKeys = Ok depth ->
  Legacy.isCalleeMatched ast N = Ok b ->
  isCalleeMatched ast depth N estraverse_VisitorKeys = Ok b.
Proof.
  intros Hsig Hcallee Hdepth H.
  unfold Legacy.isCalleeMatched in H. rewrite Hsig in H. simpl in H.
  unfold isCalleeMatched.
  destruct (isCallExpression N) as [c2|e]; simpl in *; [|discriminate].
  destruct (truthy c2); simpl in *; [|assumption].
  rewrite Hcallee in H. simpl in H.
  change (Legacy.astDepth callee) with (astDepth callee estraverse_VisitorKeys) in H.
  rewrite Hdepth in H. simpl in H.
  destruct (get N "callee") as [callee2|e]; simpl in *; [|discriminate].
  bind_split H as d2 Hd2.
  change (Legacy.astDepth callee2) with (astDepth callee2 estraverse_VisitorKeys) in Hd2.
  rewrite (isSameAstDepth_astDepth _ depth _ _ Hd2). simpl.
  destruct (Nat.eqb depth d2); simpl in *; [|assumption].
  rewrite Hcallee. simpl. exact H.
Qed.

Lemma legacy_test (E : Externals) (tree ast : value) (m : Matcher)
      (m' : Legacy.Matcher) (N : value) (b : bool) :
  extractExpressionFrom tree = Ok ast ->
  Matcher_new ast no_options = Ok m ->
  Legacy.Matcher_new ast = Ok m' ->
  Legacy.test m' N = Ok b ->
  test m N = Ok b.
Proof.
  intros Hex Hnew Hold H.
  destruct (constructed_facts _ _ _ _ _ Hex Hnew)
    as (_ & Hsig & _ & _ & _ & _ & (callee & Hcallee & Hdepth)).
  destruct (legacy_constructed _ _ _ _ Hnew Hold) as (Hs & Hs' & Hkeys & Hmin & Hmax).
  unfold Legacy.test in H. unfold test.
  rewrite Hs' , Hmin, Hmax in H. rewrite Hs, Hkeys.
  rewrite Hkeys in Hdepth.
  bind_split H as cm Hcm.
  rewrite (legacy_isCalleeMatched _ _ _ _ _ _ Hsig Hcallee Hdepth Hcm).
  exact H.
Qed.

(** C10, as the code has it.  For one signature and no options, whenever
    [test] of the earlier implementation returns, [test] of [index.js]
    returns the same boolean; and when no optional parameter is declared
    before a mandatory one, whenever [matchArgument] of the earlier
    implementation returns, [matchArgument] of [index.js] returns the same
    answer. *)
Theorem legacy_agreement (E : Externals) (tree ast : value) (m : Matcher)
        (m' : Legacy.Matcher) :
  extractExpressionFrom tree = Ok ast ->
  Matcher_new ast no_options = Ok m ->
  Legacy.Matcher_new ast = Ok m' ->
  (forall N b, Legacy.test m' N = Ok b -> test m N = Ok b)
  /\ (optional_last (declared m) = true ->
      forall cur parent a,
        Legacy.matchArgument m' cur parent = Ok a ->
        matchArgument m cur parent = Ok a).
Proof.
  intros Hex Hnew Hold.
  split; [intros N b; apply legacy_test with (tree := tree) (ast := ast); assumption|].
  intros Hlast cur parent a H.
  destruct (constructed_facts _ _ _ _ _ Hex Hnew)
    as (Hs & _ & Hsigs & Hmin & Hmax & Hkinds & _).
  destruct (legacy_constructed _ _ _ _ Hnew Hold) as (_ & Hs' & _ & _ & _).
  unfold Legacy.matchArgument in H.
  bind_split H as c Hc.
  destruct (truthy c) eqn:Htc.
  - unfold matchArgument. rewrite Hc. simpl. rewrite Htc. exact H.
  - bind_split H as t Ht.
    apply (legacy_test _ _ _ _ _ _ _ Hex Hnew Hold) in Ht.
    destruct t.
    + bind_split H as a0 Ha0. bind_split H as idx Hidx.
      destruct a0 as [| | | | |r args|]; simpl in Hidx; try discriminate.
      injection Hidx as <-.
      rewrite (matchArgument_on_match _ _ _ _ _ cur _ _ _ Hex Hnew Ht Ha0).
      rewrite Hc. simpl. rewrite Htc.
      (* the argument count lies between the two bounds *)
      destruct (proj1 (test_true _ _ _) Ht) as (_ & n & (a1 & Ha1 & Hlen) & Hlo & Hhi).
      rewrite Ha0 in Ha1. injection Ha1 as <-. simpl in Hlen. injection Hlen as <-.
      (* the signature's arguments and their descriptors *)
      bind_split H as sa Hsa. bind_split H as node Hnode. bind_split H as res Hres.
      injection H as <-.
      unfold argumentSignatures in Hsigs. rewrite Hs in Hsigs. rewrite Hs' in Hsa.
      rewrite Hsa in Hsigs. simpl in Hsigs.
      bind_split Hsigs as sargs Hsargs.
      destruct sa as [| | | | |rs sargs'|]; simpl in Hsargs; try discriminate.
      injection Hsargs as ->.
      simpl in Hnode.
      destruct (index_from_bounds args cur 0) as [Hneg|Hin].
      * rewrite Hneg in Hnode. simpl in Hnode. injection Hnode as <-.
        discriminate.
      * destruct (Z.ltb_spec (index_from 0 args cur) 0) as [Hlt|_]; [lia|].
        injection Hnode as <-.
        set (i := index_from 0 args cur) in *.
        assert (Hlen_ds : length (declared m) = length sargs).
        { clear -Hsigs. revert Hsigs. generalize (declared m).
          induction sargs as [|x tl IH]; simpl; intros ds Hm.
          - injection Hm as Hm. destruct ds; [reflexivity|discriminate].
          - bind_split Hm as y Hy. bind_split Hm as r Hr. injection Hm as Hm.
            destruct ds as [|d ds]; [discriminate|]. simpl in Hm.
            injection Hm as _ Hm. simpl. f_equal. apply IH. rewrite Hr, Hm. reflexivity. }
        assert (Hi : (Z.to_nat i < length sargs)%nat) by lia.
        destruct (nth_error sargs (Z.to_nat i)) as [x|] eqn:Hx;
          [|apply nth_error_None in Hx; lia].
        rewrite (nth_error_nth _ _ VUndefined Hx) in Hres.
        destruct (map_with_nth_error _ _ _ _ _ Hsigs Hx) as (y & Hy & Hny).
        unfold Legacy.argMatchResult in Hres. rewrite Hy in Hres. injection Hres as <-.
        rewrite nth_error_map in Hny.
        destruct (nth_error (declared m) (Z.to_nat i)) as [d|] eqn:Hd;
          simpl in Hny; [|discriminate].
        injection Hny as <-.
        rewrite (assigned_optional_last _ _ Hkinds Hlast) by lia.
        unfold element_at.
        destruct (Z.ltb_spec i 0) as [Hlt|_]; [lia|].
        rewrite nth_error_firstn.
        destruct (Nat.ltb_spec (Z.to_nat i)
                    (length (filter is_mandatory (declared m))
                     + Z.to_nat (Z.of_nat (length args) - numMinArgs m))) as [_|Hge];
          [|lia].
        rewrite Hd. reflexivity.
    + unfold matchArgument. rewrite Hc. simpl. rewrite Htc, Ht. exact H.
Qed.

Lemma legacy_agreement_witness :
  extractExpressionFrom Sample.sig_f_a_optb = Ok Sample.call_f_a_optb
  /\ @Matcher_new reference Sample.call_f_a_optb no_options = Ok m_f_a_optb
  /\ @Legacy.Matcher_new Sample.call_f_a_optb = Ok legacy_m_f_a_optb
  /\ optional_last (declared m_f_a_optb) = true
  /\ @test reference m_f_a_optb Sample.cand_f_1_2 = Ok true
  /\ @matchArgument reference m_f_a_optb Sample.two Sample.cand_f_1_2
     = Ok (Descriptor {| name := VStr "b"; kind := "optional" |}).
Proof.
  split; [reflexivity|]. split; [reflexivity|]. split; [reflexivity|].
  split; [reflexivity|].
  destruct (legacy_agreement reference Sample.sig_f_a_optb Sample.call_f_a_optb
              m_f_a_optb legacy_m_f_a_optb eq_refl eq_refl eq_refl) as (T & M).
  split.
  - apply T. reflexivity.
  - apply (M eq_refl). reflexivity.
Defined.

(** [f([a], b)] against [f(1)]: both implementations test true, [index.js]
    classifies the argument as the mandatory [b], the earlier
    implementation as the optional [a]. *)
Lemma optional_first_disagreement :
  @createMatcher reference "f([a], b)" None = Ok m_f_opta_b
  /\ @Legacy.createMatcher reference "f([a], b)" = Ok legacy_m_f_opta_b
  /\ @test reference m_f_opta_b Sample.cand_f_1 = Ok true
  /\ @Legacy.test reference legacy_m_f_opta_b Sample.cand_f_1 = Ok true
  /\ @matchArgument reference m_f_opta_b Sample.one Sample.cand_f_1
     = Ok (Descriptor {| name := VStr "b"; kind := "mandatory" |})
  /\ @Legacy.matchArgument reference legacy_m_f_opta_b Sample.one Sample.cand_f_1
     = Ok (Descriptor {| name := VStr "a"; kind := "optional" |})
  /\ @matchArgument reference m_f_opta_b Sample.one Sample.cand_f_1
     <> @Legacy.matchArgument reference legacy_m_f_opta_b Sample.one Sample.cand_f_1.
Proof.
  repeat (split; [reflexivity|]).
  vm_compute. discriminate.
Qed.

(** ** Further properties of the validation *)

Lemma hasOwn_assign_proto (names : list (string * value)) (k' : string) (v : value) :
  hasOwn (assign names "__proto__" v) k' = hasOwn names k'.
Proof. reflexivity. Qed.

Lemma not_proto_true (k : string) : not_proto k = true <-> k <> "__proto__".
Proof.
  unfold not_proto. rewrite negb_true_iff. split.
  - intros H ->. discriminate.
  - intros H. apply String.eqb_neq. exact H.
Qed.

Lemma hasOwn_assign_any (names : list (string * value)) (k k' : string) (v : value) :
  hasOwn (assign names k v) k'
  = ((not_proto k && String.eqb k' k) || hasOwn names k').
Proof.
  unfold not_proto. destruct (String.eqb_spec k "__proto__") as [->|Hk].
  - reflexivity.
  - simpl. apply hasOwn_assign. exact Hk.
Qed.

Lemma step_Ok (names names1 : list (string * value)) (arg : value) :
  validateApiExpression_step names arg = Ok names1 ->
  exists k, resolves arg k /\ hasOwn names k = false
            /\ names1 = assign names k (VStr k).
Proof.
  unfold validateApiExpression_step, resolves. intros H.
  bind_split H as v Hv. bind_split H as k Hk.
  destruct v; simpl in Hk; try discriminate. injection Hk as ->.
  destruct (hasOwn names k) eqn:Hown; [discriminate|].
  injection H as <-. eauto.
Qed.

(** What a successful run of the loop has seen: one name per argument, no
    name met before, no recordable name twice; and what it leaves in
    [names]. *)
Lemma forEach_args_sound (args : list value) :
  forall names names',
    forEach_args names args = Ok names' ->
    exists ns,
      Forall2 resolves args ns
      /\ NoDup (filter not_proto ns)
      /\ (forall n, In n ns -> hasOwn names n = false)
      /\ (forall k, hasOwn names' k = true
                    <-> hasOwn names k = true \/ (In k ns /\ not_proto k = true)).
Proof.
  induction args as [|arg tl IH]; simpl; intros names names' H.
  - injection H as <-. exists []. repeat split; try constructor; simpl; tauto.
  - bind_split H as names1 Hstep.
    destruct (step_Ok _ _ _ Hstep) as (k & Hk & Hown & ->).
    destruct (IH _ _ H) as (ns & Hres & Hnd & Hfresh & Hchar).
    exists (k :: ns).
    assert (Hfresh' : forall n, In n ns -> hasOwn names n = false).
    { intros n Hn. specialize (Hfresh n Hn). rewrite hasOwn_assign_any in Hfresh.
      apply orb_false_iff in Hfresh. tauto. }
    split; [constructor; assumption|]. split; [|split].
    + simpl. destruct (not_proto k) eqn:Hnp; [|exact Hnd].
      constructor; [|exact Hnd].
      intros Hin. apply filter_In in Hin. destruct Hin as [Hin _].
      specialize (Hfresh k Hin). rewrite hasOwn_assign_any, Hnp, String.eqb_refl in Hfresh.
      discriminate.
    + intros n [<-|Hn]; auto.
    + intros x. rewrite Hchar, hasOwn_assign_any. simpl. split.
      * intros [Hx|[Hx Hnp]]; [|tauto].
        apply orb_true_iff in Hx. destruct Hx as [Hx|Hx]; [|tauto].
        apply andb_true_iff in Hx. destruct Hx as [Hnp Hx].
        apply String.eqb_eq in Hx. subst x. tauto.
      * intros [Hx|[[<-|Hx] Hnp]]; [left; rewrite Hx; apply orb_true_r | | tauto].
        left. rewrite Hnp, String.eqb_refl. reflexivity.
Qed.

Lemma forEach_args_complete (args : list value) (ns : list string) :
  Forall2 resolves args ns ->
  forall names,
    NoDup (filter not_proto ns) ->
    (forall n, In n ns -> hasOwn names n = false) ->
    exists names', forEach_args names args = Ok names'.
Proof.
  induction 1 as [|arg k tl ns' Hk _ IH]; simpl; intros names Hnd Hfresh.
  - eauto.
  - unfold validateApiExpression_step. unfold resolves in Hk. rewrite Hk. simpl.
    rewrite (Hfresh k (or_introl eq_refl)).
    apply IH.
    + destruct (not_proto k); [inversion Hnd; assumption | exact Hnd].
    + intros n Hn. rewrite hasOwn_assign_any, (Hfresh n (or_intror Hn)).
      destruct (not_proto k) eqn:Hnp; [|reflexivity].
      destruct (String.eqb_spec n k) as [->|_]; [|reflexivity].
      inversion Hnd as [|? ? Hnotin _]; subst. elim Hnotin.
      apply filter_In. split; assumption.
Qed.

(** [validateArg] returns the name [n] exactly on the two accepted
    forms. *)
Lemma validateArg_parameter_form (arg : value) (n : string) :
  validateArg arg = Ok (VStr n) <-> parameter_form arg n.
Proof.
  unfold parameter_form, identifier_named, validateArg. split.
  - intros H. bind_split H as t Ht.
    destruct (strict_eq t (VStr Identifier)) eqn:Hid.
    + apply strict_eq_VStr in Hid. subst t. left. auto.
    + destruct (strict_eq t (VStr ArrayExpression)) eqn:Harr; [|discriminate].
      apply strict_eq_VStr in Harr. subst t. right. split; [exact Ht|].
      bind_split H as els Hels. bind_split H as len Hlen.
      destruct (strict_eq len (VNum 1)) eqn:Hone; simpl in H; [|discriminate].
      destruct len; simpl in Hone; try discriminate.
      apply Z.eqb_eq in Hone. subst.
      bind_split H as inner Hinner. bind_split H as it Hit.
      destruct (strict_eq it (VStr Identifier)) eqn:Hiid; simpl in H; [|discriminate].
      apply strict_eq_VStr in Hiid. subst it.
      exists els, inner. auto.
  - intros [(Ht & Hn) | (Ht & els & inner & Hels & Hlen & Hinner & Hit & Hn)].
    + rewrite Ht. simpl. exact Hn.
    + rewrite Ht. simpl. rewrite Hels. simpl. rewrite Hlen. simpl.
      rewrite Hinner. simpl. rewrite Hit. simpl. exact Hn.
Qed.

Lemma Forall2_parameter_form (args : list value) (ns : list string) :
  Forall2 parameter_form args ns <-> Forall2 resolves args ns.
Proof.
  split; induction 1; constructor; auto;
    apply validateArg_parameter_form; assumption.
Qed.

(** X1. A call expression passes validation exactly when every argument
    has one of the two accepted forms (an identifier, or an array literal
    of exactly one element that is an identifier) and no name other than
    [__proto__] occurs twice among the names so declared. *)
Theorem validateApiExpression_accepts (callExpression : value) (r : nat)
        (args : list value) :
  get callExpression "type" = Ok (VStr CallExpression) ->
  get callExpression "arguments" = Ok (VArray r args) ->
  (validateApiExpression callExpression = Ok tt
   <-> exists ns, Forall2 parameter_form args ns /\ NoDup (filter not_proto ns)).
Proof.
  intros Ht Ha. unfold validateApiExpression. rewrite Ht. simpl. rewrite Ha. simpl.
  split.
  - intros H. bind_split H as names Hnames.
    destruct (forEach_args_sound _ _ _ Hnames) as (ns & Hres & Hnd & _).
    exists ns. split; [apply Forall2_parameter_form; exact Hres | exact Hnd].
  - intros (ns & Hres & Hnd).
    apply Forall2_parameter_form in Hres.
    destruct (forEach_args_complete args ns Hres [] Hnd) as (names' & ->);
      [reflexivity | reflexivity].
Qed.

(** [f(a, [b])] passes; [f(a, [a])], [f(a.b)], [f([a, b])] and [f([1])]
    do not. *)
Lemma validateApiExpression_accepts_witness :
  get Sample.call_f_a_optb "type" = Ok (VStr CallExpression)
  /\ validateApiExpression Sample.call_f_a_optb = Ok tt
  /\ ~ (exists ns,
          Forall2 parameter_form
                  [Sample.ident 5 "a"; Sample.array 6 [Sample.ident 7 "a"]] ns
          /\ NoDup (filter not_proto ns))
  /\ validateApiExpression
       (Sample.call 3 (Sample.ident 4 "f")
                    [Sample.member 5 (Sample.ident 6 "a") (Sample.ident 7 "b")])
     <> Ok tt
  /\ validateApiExpression
       (Sample.call 3 (Sample.ident 4 "f")
                    [Sample.array 5 [Sample.ident 6 "a"; Sample.ident 7 "b"]])
     <> Ok tt
  /\ validateApiExpression
       (Sample.call 3 (Sample.ident 4 "f")
                    [Sample.array 5 [Sample.literal 6 1 "1"]])
     <> Ok tt.
Proof.
  split; [reflexivity|]. split; [|split].
  - apply (proj2 (validateApiExpression_accepts Sample.call_f_a_optb 3
                    [Sample.ident 5 "a"; Sample.array 6 [Sample.ident 7 "b"]]
                    eq_refl eq_refl)).
    exists ["a"; "b"]. split.
    + constructor; [left; split; reflexivity|].
      constructor; [|constructor].
      right. split; [reflexivity|].
      exists (VArray 6 [Sample.ident 7 "b"]), (Sample.ident 7 "b").
      repeat split; reflexivity.
    + simpl. repeat constructor; simpl; intuition discriminate.
  - intros Hex.
    apply (proj2 (validateApiExpression_accepts Sample.call_f_a_opta 3
                    [Sample.ident 5 "a"; Sample.array 6 [Sample.ident 7 "a"]]
                    eq_refl eq_refl)) in Hex.
    vm_compute in Hex. discriminate.
  - repeat split; vm_compute; discriminate.
Defined.

Lemma forEach_args_first_failure (pre post : list value) (arg : value) (e : exn) :
  forall names names',
    forEach_args names pre = Ok names' ->
    validateApiExpression_step names' arg = Throw e ->
    forEach_args names (pre ++ arg :: post) = Throw e.
Proof.
  induction pre as [|a tl IH]; simpl; intros names names' Hpre Hstep.
  - injection Hpre as ->. rewrite Hstep. reflexivity.
  - bind_split Hpre as names1 Hs. rewrite Hs. simpl. eapply IH; eassumption.
Qed.

(** X2. Validation stops at the first argument of a wrong form: when the
    arguments before it pass, the error of that argument is the error of
    the whole validation, whatever comes after it (further wrong forms or
    repeated names are never reached). *)
Theorem validateApiExpression_first_invalid (callExpression : value) (r : nat)
        (pre post : list value) (arg : value) (e : exn)
        (names : list (string * value)) :
  get callExpression "type" = Ok (VStr CallExpression) ->
  get callExpression "arguments" = Ok (VArray r (pre ++ arg :: post)) ->
  forEach_args [] pre = Ok names ->
  validateArg arg = Throw e ->
  validateApiExpression callExpression = Throw e.
Proof.
  intros Ht Ha Hpre Harg.
  unfold validateApiExpression. rewrite Ht. simpl. rewrite Ha. simpl.
  rewrite (forEach_args_first_failure pre post arg e [] names Hpre); [reflexivity|].
  unfold validateApiExpression_step. rewrite Harg. reflexivity.
Qed.

Lemma validateApiExpression_first_invalid_witness :
  forEach_args [] [Sample.ident 5 "a"] = Ok [("a", VStr "a")]
  /\ validateArg (Sample.array 6 [Sample.literal 7 1 "1"])
     = Throw (Error invalidFormMessage)
  /\ validateApiExpression Sample.call_f_a_lit_a = Throw (Error invalidFormMessage).
Proof.
  split; [reflexivity|]. split; [reflexivity|].
  apply (validateApiExpression_first_invalid Sample.call_f_a_lit_a 3
           [Sample.ident 5 "a"] [Sample.ident 8 "a"]
           (Sample.array 6 [Sample.literal 7 1 "1"])
           (Error invalidFormMessage) [("a", VStr "a")]); reflexivity.
Defined.

(** X3. An array literal as argument: with no element or with more than
    one it is rejected with the form error; with a hole as its one element
    ([f([,])]) the validation raises a [TypeError] on reading the type of
    [null]. *)
Theorem validateArg_array_edges (arg : value) (r : nat) (elems : list value) :
  get arg "type" = Ok (VStr ArrayExpression) ->
  get arg "elements" = Ok (VArray r elems) ->
  (length elems <> 1%nat -> validateArg arg = Throw (Error invalidFormMessage))
  /\ (elems = [VNull] -> validateArg arg = Throw TypeError).
Proof.
  intros Ht He. unfold validateArg. rewrite Ht. simpl. rewrite He. simpl.
  split.
  - intros Hlen.
    destruct (Z.eqb_spec (Z.of_nat (length elems)) 1) as [Heq|_]; [|reflexivity].
    elim Hlen. lia.
  - intros ->. reflexivity.
Qed.

Lemma validateArg_array_edges_witness :
  validateArg (Sample.array 6 []) = Throw (Error invalidFormMessage)
  /\ validateArg (Sample.array 6 [Sample.ident 7 "a"; Sample.ident 8 "b"])
     = Throw (Error invalidFormMessage)
  /\ validateArg Sample.hole_argument = Throw TypeError.
Proof.
  split; [|split].
  - apply (proj1 (validateArg_array_edges (Sample.array 6 []) 6 [] eq_refl eq_refl)).
    discriminate.
  - apply (proj1 (validateArg_array_edges
                    (Sample.array 6 [Sample.ident 7 "a"; Sample.ident 8 "b"]) 6
                    [Sample.ident 7 "a"; Sample.ident 8 "b"] eq_refl eq_refl)).
    discriminate.
  - apply (proj2 (validateArg_array_edges Sample.hole_argument 6 [VNull]
                    eq_refl eq_refl)).
    reflexivity.
Defined.

(** X4. Only the first statement of the parsed signature is looked at: two
    programs with the same first statement are extracted alike, so
    statements after the first are accepted and ignored. *)
Theorem extractExpressionFrom_first_statement (tree1 tree2 statement : value)
        (r1 r2 : nat) (rest1 rest2 : list value) :
  get tree1 "body" = Ok (VArray r1 (statement :: rest1)) ->
  get tree2 "body" = Ok (VArray r2 (statement :: rest2)) ->
  extractExpressionFrom tree1 = extractExpressionFrom tree2.
Proof.
  intros H1 H2. unfold extractExpressionFrom. rewrite H1, H2. reflexivity.
Qed.

Lemma extractExpressionFrom_first_statement_witness :
  extractExpressionFrom Sample.sig_f_a_optb = Ok Sample.call_f_a_optb
  /\ extractExpressionFrom Sample.sig_two_statements = Ok Sample.call_f_a_optb.
Proof.
  split; [reflexivity|].
  rewrite (extractExpressionFrom_first_statement
             Sample.sig_two_statements Sample.sig_f_a_optb
             (Sample.statement 2 Sample.call_f_a_optb) 1 1
             [Sample.statement 8 (Sample.call 9 (Sample.ident 10 "g") [])] []
             eq_refl eq_refl).
  reflexivity.
Defined.

(** What extraction guarantees about the expression it returns. *)
Lemma extracted_facts (tree ast : value) :
  extractExpressionFrom tree = Ok ast ->
  get ast "type" = Ok (VStr CallExpression)
  /\ exists r args names,
       get ast "arguments" = Ok (VArray r args)
       /\ forEach_args [] args = Ok names.
Proof.
  intros Hex. unfold extractExpressionFrom in Hex.
  bind_split Hex as body Hbody. bind_split Hex as stmt Hstmt. bind_split Hex as st Hst.
  destruct (negb (strict_eq st (VStr ExpressionStatement))); [discriminate|].
  bind_split Hex as expression Hexpr. bind_split Hex as u Hval. injection Hex as <-.
  unfold validateApiExpression in Hval.
  bind_split Hval as t Htype.
  destruct (strict_eq t (VStr CallExpression)) eqn:Ht; [simpl in Hval|discriminate].
  apply strict_eq_VStr in Ht. subst t.
  bind_split Hval as a Ha. bind_split Hval as args Hargs. bind_split Hval as names Hnames.
  destruct a; simpl in Hargs; try discriminate. injection Hargs as ->.
  split; [assumption|]. eauto.
Qed.

(** X5. Once the signature has passed validation, construction can fail in
    one place only, the traversal that measures the callee: it returns a
    matcher with that depth, the chosen keys and the expression itself
    when the traversal completes, and raises the traversal's error
    otherwise. *)
Theorem Matcher_new_after_validation (E : Externals) (tree ast : value)
        (options : Options) :
  extractExpressionFrom tree = Ok ast ->
  exists callee,
    get ast "callee" = Ok callee
    /\ match astDepth callee (keys_of options) with
       | Ok d =>
           exists m, Matcher_new ast options = Ok m
                     /\ signatureCalleeDepth m = d
                     /\ visitorKeys m = keys_of options
                     /\ signatureAst m = ast
       | Throw e => Matcher_new ast options = Throw e
       end.
Proof.
  intros Hex.
  destruct (extracted_facts _ _ Hex) as (Ht & r & args & names & Ha & Hnames).
  destruct (forEach_args_descriptors _ _ _ Hnames) as (ds & ids & _ & Hf & _).
  assert (Hobj : truthy ast = true).
  { destruct ast; simpl in Ht; try discriminate; reflexivity. }
  destruct (get_truthy ast "callee" Hobj) as (callee & Hc).
  exists callee. split; [assumption|].
  unfold Matcher_new, keys_of. rewrite Hc. simpl.
  destruct (astDepth callee
              match opt_visitorKeys options with
              | Some k => k
              | None => estraverse_VisitorKeys
              end) as [d|e]; simpl; [|reflexivity].
  rewrite Ha. simpl. rewrite Hf. simpl.
  eexists. split; [reflexivity|]. simpl. auto.
Qed.

Lemma Matcher_new_after_validation_witness :
  extractExpressionFrom Sample.sig_a_b = Ok Sample.call_a_b
  /\ exists m, @Matcher_new reference Sample.call_a_b no_options = Ok m
               /\ signatureCalleeDepth m = 1%nat.
Proof.
  split; [reflexivity|].
  destruct (Matcher_new_after_validation reference Sample.sig_a_b Sample.call_a_b
              no_options eq_refl) as (callee & Hc & H).
  injection Hc as <-.
  destruct H as (m & Hm & Hd & _). exists m. split; assumption.
Defined.

Lemma resolved_names (args : list value) (ns : list string) :
  Forall2 resolves args ns ->
  forall ds, map_with toArgumentSignature args = Ok (map Some ds) ->
             map name ds = map VStr ns.
Proof.
  induction 1 as [|arg k tl ns' Hk _ IH]; simpl; intros ds Hm.
  - injection Hm as Hm. destruct ds; [reflexivity|discriminate].
  - bind_split Hm as y Hy. bind_split Hm as rest Hrest. injection Hm as Hm.
    destruct ds as [|d ds]; [discriminate|]. simpl in Hm. injection Hm as -> ->.
    destruct (validateArg_descriptor _ _ Hk) as (d' & Hd' & Hname & _).
    rewrite Hd' in Hy. injection Hy as ->.
    simpl. rewrite Hname, (IH ds Hrest). reflexivity.
Qed.

(** X6. The descriptors of a constructed matcher are named by strings, and
    no name other than [__proto__] is carried by two of them. *)
Theorem declared_names_distinct (E : Externals) (tree ast : value)
        (opts : Options) (m : Matcher) :
  extractExpressionFrom tree = Ok ast ->
  Matcher_new ast opts = Ok m ->
  exists ns, map name (declared m) = map VStr ns
             /\ NoDup (filter not_proto ns).
Proof.
  intros Hex Hnew.
  destruct (constructed_facts _ _ _ _ _ Hex Hnew) as (Hs & _ & Hsigs & _).
  destruct (extracted_facts _ _ Hex) as (_ & r & args & names & Ha & Hnames).
  destruct (forEach_args_sound _ _ _ Hnames) as (ns & Hres & Hnd & _).
  exists ns. split; [|assumption].
  apply (resolved_names args ns Hres).
  unfold argumentSignatures in Hsigs. rewrite Hs, Ha in Hsigs. exact Hsigs.
Qed.

Lemma declared_names_distinct_witness :
  extractExpressionFrom Sample.sig_f_a_optb = Ok Sample.call_f_a_optb
  /\ @Matcher_new reference Sample.call_f_a_optb no_options = Ok m_f_a_optb
  /\ map name (declared m_f_a_optb) = [VStr "a"; VStr "b"]
  /\ exists ns, map name (declared m_f_a_optb) = map VStr ns
                /\ NoDup (filter not_proto ns).
Proof.
  split; [reflexivity|]. split; [reflexivity|]. split; [reflexivity|].
  apply (declared_names_distinct reference Sample.sig_f_a_optb Sample.call_f_a_optb
           no_options m_f_a_optb eq_refl eq_refl).
Defined.

(** X7. The two bounds of a constructed matcher: [numMaxArgs] counts the
    declared parameters, [numMinArgs] the mandatory ones, their difference
    the optional ones, and [0 <= numMinArgs <= numMaxArgs]. *)
Theorem Matcher_bounds (E : Externals) (tree ast : value) (opts : Options)
        (m : Matcher) :
  extractExpressionFrom tree = Ok ast ->
  Matcher_new ast opts = Ok m ->
  numMaxArgs m = Z.of_nat (length (declared m))
  /\ numMinArgs m = Z.of_nat (length (filter is_mandatory (declared m)))
  /\ numMaxArgs m - numMinArgs m = Z.of_nat (length (filter is_optional (declared m)))
  /\ 0 <= numMinArgs m <= numMaxArgs m.
Proof.
  intros Hex Hnew.
  destruct (constructed_facts _ _ _ _ _ Hex Hnew)
    as (_ & _ & _ & Hmin & Hmax & Hkinds & _).
  pose proof (known_kind_count _ Hkinds) as Hcount.
  rewrite Hmin, Hmax. lia.
Qed.

Lemma Matcher_bounds_witness :
  extractExpressionFrom Sample.sig_f_a_optb = Ok Sample.call_f_a_optb
  /\ @Matcher_new reference Sample.call_f_a_optb no_options = Ok m_f_a_optb
  /\ numMinArgs m_f_a_optb = 1 /\ numMaxArgs m_f_a_optb = 2
  /\ 0 <= numMinArgs m_f_a_optb <= numMaxArgs m_f_a_optb.
Proof.
  split; [reflexivity|]. split; [reflexivity|]. split; [reflexivity|].
  split; [reflexivity|].
  apply (Matcher_bounds reference Sample.sig_f_a_optb Sample.call_f_a_optb
           no_options m_f_a_optb eq_refl eq_refl).
Defined.

(** ** Further properties of the classification *)

Lemma assigned_mandatory (ds : list ArgumentSignature) : forall filled,
  filter is_mandatory (assigned ds filled) = filter is_mandatory ds.
Proof.
  induction ds as [|x tl IH]; simpl; intros filled; [reflexivity|].
  destruct (is_mandatory x) eqn:Hm.
  - simpl. rewrite Hm, IH. reflexivity.
  - destruct (is_optional x && (0 <? filled)); simpl; [rewrite Hm|]; apply IH.
Qed.

Lemma assigned_optional (ds : list ArgumentSignature) : forall filled,
  filter is_optional (assigned ds filled)
  = firstn (Z.to_nat filled) (filter is_optional ds).
Proof.
  induction ds as [|x tl IH]; simpl; intros filled.
  - rewrite firstn_nil. reflexivity.
  - destruct (is_mandatory x) eqn:Hm.
    + simpl. rewrite (mandatory_not_optional _ Hm). apply IH.
    + destruct (is_optional x) eqn:Ho; simpl; [|apply IH].
      destruct (Z.ltb_spec 0 filled) as [Hlt|Hge]; simpl.
      * rewrite Ho, IH.
        replace (Z.to_nat filled) with (S (Z.to_nat (filled - 1))) by lia.
        reflexivity.
      * rewrite IH. replace (Z.to_nat filled) with 0%nat by lia.
        reflexivity.
Qed.

Lemma assigned_no_slot (ds : list ArgumentSignature) (filled : Z) :
  filled <= 0 -> assigned ds filled = filter is_mandatory ds.
Proof.
  intros Hf. induction ds as [|x tl IH]; simpl; [reflexivity|].
  destruct (is_mandatory x); [rewrite IH; reflexivity|].
  destruct (Z.ltb_spec 0 filled) as [Hlt|_]; [lia|].
  rewrite andb_false_r. exact IH.
Qed.

(** The walk from a position onwards is the selection from that position
    onwards, the slots left being those not taken by the optional
    descriptors before it. *)
Lemma assigned_selection_from (tl : list ArgumentSignature) :
  forall (pre : list ArgumentSignature) (numOptional : Z),
    assigned tl (numOptional - Z.of_nat (length (filter is_optional pre)))
    = map snd
          (filter (fun id : nat * ArgumentSignature =>
                     keeps (pre ++ tl) numOptional (fst id) (snd id))
                  (combine (seq (length pre) (length tl)) tl)).
Proof.
  induction tl as [|d tl IH]; intros pre numOptional; [reflexivity|].
  cbn [assigned length seq combine filter fst snd].
  assert (Hpre : firstn (length pre) (pre ++ d :: tl) = pre).
  { rewrite firstn_app, Nat.sub_diag, firstn_all. simpl. apply app_nil_r. }
  unfold keeps at 1. rewrite Hpre.
  set (c := Z.of_nat (length (filter is_optional pre))).
  assert (Hnext : forall tl', (pre ++ [d]) ++ tl' = pre ++ d :: tl').
  { intros tl'. rewrite <- app_assoc. reflexivity. }
  assert (Hlen : length (pre ++ [d]) = S (length pre)).
  { rewrite length_app. simpl. lia. }
  pose proof (IH (pre ++ [d]) numOptional) as IH'.
  rewrite Hnext, Hlen, filter_app, length_app in IH'. simpl in IH'.
  replace (0 <? numOptional - c) with (c <? numOptional)
    by (destruct (Z.ltb_spec c numOptional), (Z.ltb_spec 0 (numOptional - c));
        try reflexivity; lia).
  destruct (is_mandatory d) eqn:Hm.
  - rewrite (mandatory_not_optional _ Hm) in IH'. simpl in IH'.
    rewrite Nat.add_0_r in IH'. fold c in IH'. cbn [orb map snd].
    rewrite IH'. reflexivity.
  - cbn [orb]. destruct (is_optional d) eqn:Ho; cbn [andb].
    + simpl in IH'.
      replace (Z.of_nat (length (filter is_optional pre) + 1)) with (c + 1) in IH'
        by (unfold c; lia).
      destruct (Z.ltb_spec c numOptional) as [Hlt|Hge]; cbn [map snd].
      * replace (numOptional - c - 1) with (numOptional - (c + 1)) by lia.
        rewrite IH'. reflexivity.
      * rewrite <- IH'.
        rewrite !assigned_no_slot by lia. reflexivity.
    + simpl in IH'. rewrite Nat.add_0_r in IH'. fold c in IH'.
      exact IH'.
Qed.

(** X8. The loop of [matchArgument] over the declared descriptors returns
    exactly the selection, in declared order: a descriptor is kept when it
    is mandatory, or when it is optional and fewer than [numOptional]
    optional descriptors are declared before it; nothing else is kept and
    nothing is moved.  In particular every mandatory descriptor is kept
    and, of the optional ones, the first [numOptional]. *)
Theorem reduce_selection (ds : list ArgumentSignature) (numOptional : Z) :
  exists left,
    reduce (numOptional, []) (map Some ds) = Ok (left, selection ds numOptional)
    /\ filter is_mandatory (selection ds numOptional) = filter is_mandatory ds
    /\ filter is_optional (selection ds numOptional)
       = firstn (Z.to_nat numOptional) (filter is_optional ds).
Proof.
  destruct (reduce_assigned ds numOptional []) as (left & H).
  assert (Hsel : assigned ds numOptional = selection ds numOptional).
  { pose proof (assigned_selection_from ds [] numOptional) as S.
    simpl in S. rewrite Z.sub_0_r in S. exact S. }
  exists left. simpl in H. rewrite <- Hsel.
  split; [exact H|]. split; [apply assigned_mandatory | apply assigned_optional].
Qed.

Lemma index_from_found (args : list value) (cur : value) : forall i,
  0 <= i ->
  existsb (fun x => strict_eq x cur) args = true ->
  i <= index_from i args cur < i + Z.of_nat (length args).
Proof.
  induction args as [|x tl IH]; simpl; intros i Hi H; [discriminate|].
  destruct (strict_eq x cur); simpl in H.
  - lia.
  - assert (Hi' : 0 <= i + 1) by lia. specialize (IH (i + 1) Hi' H). lia.
Qed.

Lemma test_true_count (E : Externals) (m : Matcher) (parent : value) (r : nat)
      (args : list value) :
  test m parent = Ok true ->
  get parent "arguments" = Ok (VArray r args) ->
  numMinArgs m <= Z.of_nat (length args) <= numMaxArgs m.
Proof.
  intros Ht Ha.
  destruct (proj1 (test_true _ _ _) Ht) as (_ & n & (a & Ha' & Hlen) & Hb).
  rewrite Ha in Ha'. injection Ha' as <-. simpl in Hlen. injection Hlen as <-.
  exact Hb.
Qed.

Lemma matchArgument_not_callee (E : Externals) (tree ast : value) (opts : Options)
      (m : Matcher) (cur parent c : value) (r : nat) (args : list value) :
  extractExpressionFrom tree = Ok ast ->
  Matcher_new ast opts = Ok m ->
  test m parent = Ok true ->
  get parent "arguments" = Ok (VArray r args) ->
  get parent "callee" = Ok c ->
  strict_eq c cur = false ->
  matchArgument m cur parent =
    Ok (element_at
          (assigned (declared m) (Z.of_nat (length args) - numMinArgs m))
          (index_from 0 args cur)).
Proof.
  intros Hex Hnew Htest Hargs Hc Hne.
  rewrite (matchArgument_on_match _ _ _ _ _ cur _ _ _ Hex Hnew Htest Hargs).
  destruct (isCalleeOfParent_false _ _ _ (test_true_call _ _ _ Htest) Hc Hne)
    as (v & -> & Hv).
  simpl. rewrite Hv. reflexivity.
Qed.

(** X9. Every argument of a call the signature matches is classified: for
    a node found among the arguments (and not in the callee slot),
    [matchArgument] returns a descriptor, and it is one of the declared
    ones. *)
Theorem matchArgument_classifies (E : Externals) (tree ast : value)
        (opts : Options) (m : Matcher) (cur parent c : value)
        (r : nat) (args : list value) :
  extractExpressionFrom tree = Ok ast ->
  Matcher_new ast opts = Ok m ->
  test m parent = Ok true ->
  get parent "arguments" = Ok (VArray r args) ->
  get parent "callee" = Ok c ->
  strict_eq c cur = false ->
  existsb (fun x => strict_eq x cur) args = true ->
  exists d, matchArgument m cur parent = Ok (Descriptor d) /\ In d (declared m).
Proof.
  intros Hex Hnew Htest Hargs Hc Hne Hfound.
  rewrite (matchArgument_not_callee _ _ _ _ _ _ _ _ _ _ Hex Hnew Htest Hargs Hc Hne).
  destruct (constructed_facts _ _ _ _ _ Hex Hnew)
    as (_ & _ & _ & Hmin & Hmax & Hkinds & _).
  pose proof (test_true_count _ _ _ _ _ Htest Hargs) as Hcount.
  pose proof (known_kind_count _ Hkinds) as Hk.
  pose proof (index_from_found args cur 0 (Z.le_refl 0) Hfound) as Hi.
  set (filled := Z.of_nat (length args) - numMinArgs m) in *.
  assert (Hlen : Z.of_nat (length (assigned (declared m) filled))
                 = Z.of_nat (length args)).
  { rewrite (assigned_length (declared m) filled Hkinds); unfold filled; lia. }
  unfold element_at.
  destruct (Z.ltb_spec (index_from 0 args cur) 0) as [Hlt|_]; [lia|].
  destruct (nth_error (assigned (declared m) filled)
              (Z.to_nat (index_from 0 args cur))) as [d|] eqn:Hd.
  - exists d. split; [reflexivity|].
    apply nth_error_In in Hd. eapply assigned_incl. exact Hd.
  - apply nth_error_None in Hd. lia.
Qed.

Lemma matchArgument_classifies_witness :
  @test reference m_f_a_optb Sample.cand_f_1_2 = Ok true
  /\ existsb (fun x => strict_eq x Sample.two) [Sample.one; Sample.two] = true
  /\ exists d, @matchArgument reference m_f_a_optb Sample.two Sample.cand_f_1_2
               = Ok (Descriptor d)
               /\ In d (declared m_f_a_optb).
Proof.
  split; [reflexivity|]. split; [reflexivity|].
  apply (matchArgument_classifies reference Sample.sig_f_a_optb Sample.call_f_a_optb
           no_options m_f_a_optb Sample.two Sample.cand_f_1_2 Sample.callee_f
           10 [Sample.one; Sample.two]); reflexivity.
Defined.

(** X10. [matchArgument] never makes up a descriptor: whatever the
    candidate and the parent, a descriptor it returns is one of the
    declared ones. *)
Theorem matchArgument_answers_declared (E : Externals) (tree ast : value)
        (opts : Options) (m : Matcher) (cur parent : value)
        (d : ArgumentSignature) :
  extractExpressionFrom tree = Ok ast ->
  Matcher_new ast opts = Ok m ->
  matchArgument m cur parent = Ok (Descriptor d) ->
  In d (declared m).
Proof.
  intros Hex Hnew H.
  destruct (constructed_facts _ _ _ _ _ Hex Hnew) as (_ & _ & Hsigs & _).
  unfold matchArgument in H.
  bind_split H as c Hc. destruct (truthy c); [discriminate|].
  bind_split H as t Ht. destruct t; [|discriminate].
  bind_split H as a Ha. bind_split H as idx Hidx.
  bind_split H as len Hlen. bind_split H as n Hn.
  rewrite Hsigs in H. simpl in H.
  destruct (reduce_assigned (declared m) (n - numMinArgs m) []) as (left & Hred).
  rewrite Hred in H. simpl in H. injection H as H.
  unfold element_at in H.
  destruct (idx <? 0); [discriminate|].
  destruct (nth_error (assigned (declared m) (n - numMinArgs m)) (Z.to_nat idx))
    as [d'|] eqn:Hd; [|discriminate].
  injection H as ->.
  apply nth_error_In in Hd. eapply assigned_incl. exact Hd.
Qed.

Lemma matchArgument_answers_declared_witness :
  @matchArgument reference m_f_a_optb Sample.two Sample.cand_f_1_2
  = Ok (Descriptor {| name := VStr "b"; kind := "optional" |})
  /\ In {| name := VStr "b"; kind := "optional" |} (declared m_f_a_optb).
Proof.
  split; [reflexivity|].
  apply (matchArgument_answers_declared reference Sample.sig_f_a_optb
           Sample.call_f_a_optb no_options m_f_a_optb Sample.two Sample.cand_f_1_2
           {| name := VStr "b"; kind := "optional" |}); reflexivity.
Defined.

Lemma assigned_none_filled (ds : list ArgumentSignature) :
  assigned ds 0 = filter is_mandatory ds.
Proof.
  induction ds as [|x tl IH]; simpl; [reflexivity|].
  destruct (is_mandatory x); [rewrite IH; reflexivity|].
  rewrite andb_false_r. exact IH.
Qed.

Lemma assigned_all_filled (ds : list ArgumentSignature) : forall filled,
  Forall known_kind ds ->
  Z.of_nat (length (filter is_optional ds)) <= filled ->
  assigned ds filled = ds.
Proof.
  induction ds as [|x tl IH]; intros filled Hk Hb; [reflexivity|].
  inversion Hk as [|x' tl' Hx Htl]; subst.
  cbn [assigned filter] in *.
  destruct (is_mandatory x) eqn:Hm.
  - rewrite (mandatory_not_optional _ Hm) in Hb. rewrite (IH filled Htl Hb).
    reflexivity.
  - assert (Ho : is_optional x = true).
    { destruct Hx as [Hx|Hx]; unfold is_mandatory, is_optional in *;
        rewrite Hx in *; [discriminate | reflexivity]. }
    rewrite Ho in *. cbn [length andb] in *.
    destruct (Z.ltb_spec 0 filled) as [_|Hge]; [|lia].
    rewrite (IH (filled - 1) Htl) by lia. reflexivity.
Qed.

(** X11. The two ends of the argument range.  When a matching call has
    exactly [numMinArgs] arguments, its i-th argument is the i-th
    mandatory parameter (optional ones are skipped wherever they are
    declared); when it has exactly [numMaxArgs], its i-th argument is the
    i-th declared parameter. *)
Theorem matchArgument_at_bounds (E : Externals) (tree ast : value)
        (opts : Options) (m : Matcher) (cur parent c : value)
        (r : nat) (args : list value) :
  extractExpressionFrom tree = Ok ast ->
  Matcher_new ast opts = Ok m ->
  test m parent = Ok true ->
  get parent "arguments" = Ok (VArray r args) ->
  get parent "callee" = Ok c ->
  strict_eq c cur = false ->
  (Z.of_nat (length args) = numMinArgs m ->
   matchArgument m cur parent
   = Ok (element_at (filter is_mandatory (declared m)) (index_from 0 args cur)))
  /\ (Z.of_nat (length args) = numMaxArgs m ->
      matchArgument m cur parent
      = Ok (element_at (declared m) (index_from 0 args cur))).
Proof.
  intros Hex Hnew Htest Hargs Hc Hne.
  rewrite (matchArgument_not_callee _ _ _ _ _ _ _ _ _ _ Hex Hnew Htest Hargs Hc Hne).
  destruct (constructed_facts _ _ _ _ _ Hex Hnew)
    as (_ & _ & _ & Hmin & Hmax & Hkinds & _).
  pose proof (known_kind_count _ Hkinds) as Hk.
  split; intros Hlen.
  - rewrite Hlen, Z.sub_diag, assigned_none_filled. reflexivity.
  - rewrite assigned_all_filled; [reflexivity | assumption | lia].
Qed.

Lemma matchArgument_at_bounds_witness :
  @test reference m_f_opta_b Sample.cand_f_1 = Ok true
  /\ numMinArgs m_f_opta_b = 1
  /\ @matchArgument reference m_f_opta_b Sample.one Sample.cand_f_1
     = Ok (Descriptor {| name := VStr "b"; kind := "mandatory" |})
  /\ @matchArgument reference m_f_opta_b Sample.one Sample.cand_f_1_2
     = Ok (Descriptor {| name := VStr "a"; kind := "optional" |}).
Proof.
  split; [reflexivity|]. split; [reflexivity|]. split.
  - rewrite (proj1 (matchArgument_at_bounds reference Sample.sig_f_opta_b
                      Sample.call_f_opta_b no_options m_f_opta_b
                      Sample.one Sample.cand_f_1 Sample.callee_f 10 [Sample.one]
                      eq_refl eq_refl eq_refl eq_refl eq_refl eq_refl) eq_refl).
    reflexivity.
  - rewrite (proj2 (matchArgument_at_bounds reference Sample.sig_f_opta_b
                      Sample.call_f_opta_b no_options m_f_opta_b
                      Sample.one Sample.cand_f_1_2 Sample.callee_f 10
                      [Sample.one; Sample.two]
                      eq_refl eq_refl eq_refl eq_refl eq_refl eq_refl) eq_refl).
    reflexivity.
Defined.

Lemma element_at_firstn (l : list ArgumentSignature) (n : nat) (i : Z) :
  i < Z.of_nat n -> element_at (firstn n l) i = element_at l i.
Proof.
  intros Hi. unfold element_at.
  destruct (Z.ltb_spec i 0) as [_|Hge]; [reflexivity|].
  rewrite nth_error_firstn.
  destruct (Nat.ltb_spec (Z.to_nat i) n) as [_|Hn]; [reflexivity | lia].
Qed.

(** X12. For a signature whose optional parameters are all declared after
    the mandatory ones, classification is positional: the i-th argument of
    a matching call is the i-th declared parameter. *)
Theorem matchArgument_positional (E : Externals) (tree ast : value)
        (opts : Options) (m : Matcher) (cur parent c : value)
        (r : nat) (args : list value) :
  extractExpressionFrom tree = Ok ast ->
  Matcher_new ast opts = Ok m ->
  optional_last (declared m) = true ->
  test m parent = Ok true ->
  get parent "arguments" = Ok (VArray r args) ->
  get parent "callee" = Ok c ->
  strict_eq c cur = false ->
  matchArgument m cur parent
  = Ok (element_at (declared m) (index_from 0 args cur)).
Proof.
  intros Hex Hnew Hlast Htest Hargs Hc Hne.
  rewrite (matchArgument_not_callee _ _ _ _ _ _ _ _ _ _ Hex Hnew Htest Hargs Hc Hne).
  destruct (constructed_facts _ _ _ _ _ Hex Hnew)
    as (_ & _ & _ & Hmin & Hmax & Hkinds & _).
  pose proof (test_true_count _ _ _ _ _ Htest Hargs) as Hcount.
  rewrite (assigned_optional_last _ _ Hkinds Hlast) by lia.
  rewrite element_at_firstn; [reflexivity|].
  destruct (index_from_bounds args cur 0) as [Hneg|Hin]; lia.
Qed.

Lemma matchArgument_positional_witness :
  optional_last (declared m_f_a_optb) = true
  /\ @test reference m_f_a_optb Sample.cand_f_1_2 = Ok true
  /\ @matchArgument reference m_f_a_optb Sample.two Sample.cand_f_1_2
     = Ok (Descriptor {| name := VStr "b"; kind := "optional" |}).
Proof.
  split; [reflexivity|]. split; [reflexivity|].
  rewrite (matchArgument_positional reference Sample.sig_f_a_optb
             Sample.call_f_a_optb no_options m_f_a_optb
             Sample.two Sample.cand_f_1_2 Sample.callee_f 10 [Sample.one; Sample.two]
             eq_refl eq_refl eq_refl eq_refl eq_refl eq_refl eq_refl).
  reflexivity.
Defined.

(** X13. With a parent that is not a call expression ([undefined] and
    [null] included) [matchArgument] returns [null], for every matcher and
    every candidate, and raises nothing. *)
Theorem matchArgument_parent_not_call (E : Externals) (m : Matcher)
        (cur parent : value) :
  isCallExpression parent <> Ok (VBool true) ->
  matchArgument m cur parent = Ok Null.
Proof.
  intros Hne. unfold matchArgument.
  destruct (isCalleeOfParent_Ok cur parent) as (v & ->). simpl.
  destruct (truthy v); [reflexivity|].
  rewrite (test_not_call _ _ _ Hne). reflexivity.
Qed.

Lemma matchArgument_parent_not_call_witness :
  isCallExpression VUndefined <> Ok (VBool true)
  /\ @matchArgument reference m_f_a_optb Sample.one VUndefined = Ok Null
  /\ @matchArgument reference m_f_a_optb Sample.one Sample.callee_f = Ok Null.
Proof.
  split; [discriminate|]. split.
  - apply (matchArgument_parent_not_call reference m_f_a_optb Sample.one VUndefined).
    discriminate.
  - apply (matchArgument_parent_not_call reference m_f_a_optb Sample.one
             Sample.callee_f).
    vm_compute. discriminate.
Defined.

(** X14. [isCalleeOfParent] never raises, and its result is truthy exactly
    when the candidate is truthy, the parent's type is [CallExpression]
    and the parent's callee is [===] to the candidate. *)
Theorem isCalleeOfParent_spec (cur parent : value) :
  exists v,
    isCalleeOfParent cur parent = Ok v
    /\ (truthy v = true
        <-> truthy cur = true
            /\ get parent "type" = Ok (VStr CallExpression)
            /\ exists c, get parent "callee" = Ok c /\ strict_eq c cur = true).
Proof.
  unfold isCalleeOfParent.
  destruct (truthy parent) eqn:Hp.
  - destruct (truthy cur) eqn:Hcur.
    + destruct (get_truthy parent "type" Hp) as (t & Ht). rewrite Ht. simpl.
      destruct (strict_eq t (VStr CallExpression)) eqn:Hte.
      * apply strict_eq_VStr in Hte. subst t.
        destruct (get_truthy parent "callee" Hp) as (c & Hc). rewrite Hc. simpl.
        eexists. split; [reflexivity|]. simpl. split.
        -- intros H. split; [reflexivity|]. split; [reflexivity|].
           exists c. split; [reflexivity | exact H].
        -- intros (_ & _ & c' & Hc' & Heq). injection Hc' as <-. exact Heq.
      * eexists. split; [reflexivity|]. simpl. split; [discriminate|].
        intros (_ & Ht' & _). injection Ht' as ->.
        vm_compute in Hte. discriminate.
    + exists cur. split; [reflexivity|]. rewrite Hcur. split; [discriminate|].
      intros (H & _). discriminate.
  - exists parent. split; [reflexivity|]. rewrite Hp. split; [discriminate|].
    intros (_ & Ht & _).
    destruct parent; simpl in Hp, Ht; try discriminate.
Qed.

(** X15. [test] looks at the callee and at the number of arguments, never
    at the arguments themselves: two call expressions with the same callee
    and as many arguments get the same result. *)
Theorem test_ignores_arguments (E : Externals) (m : Matcher) (N1 N2 c : value)
        (r1 r2 : nat) (args1 args2 : list value) :
  isCallExpression N1 = Ok (VBool true) ->
  isCallExpression N2 = Ok (VBool true) ->
  get N1 "callee" = Ok c ->
  get N2 "callee" = Ok c ->
  get N1 "arguments" = Ok (VArray r1 args1) ->
  get N2 "arguments" = Ok (VArray r2 args2) ->
  length args1 = length args2 ->
  test m N1 = test m N2.
Proof.
  intros H1 H2 Hc1 Hc2 Ha1 Ha2 Hlen.
  unfold test, isCalleeMatched.
  rewrite H1, H2. simpl. rewrite Hc1, Hc2, Ha1, Ha2. simpl. rewrite Hlen.
  reflexivity.
Qed.

Lemma test_ignores_arguments_witness :
  @test reference m_f_a_optb Sample.cand_f_1 = Ok true
  /\ @test reference m_f_a_optb (Sample.call 20 Sample.callee_f [Sample.cand_a_b])
     = Ok true.
Proof.
  split; [reflexivity|].
  rewrite <- (test_ignores_arguments reference m_f_a_optb Sample.cand_f_1
                (Sample.call 20 Sample.callee_f [Sample.cand_a_b]) Sample.callee_f
                10 20 [Sample.one] [Sample.cand_a_b]
                eq_refl eq_refl eq_refl eq_refl eq_refl eq_refl eq_refl).
  reflexivity.
Defined.

(** X16. When [test] is true, [calleeAst] succeeds and the purified callee
    of the candidate is deeply equal to what it returns. *)
Theorem test_true_calleeAst (E : Externals) (m : Matcher) (N : value) :
  test m N = Ok true ->
  exists c p q,
    calleeAst m = Ok p /\ get N "callee" = Ok c /\ espurify c = Ok q
    /\ deepEqual p q = true.
Proof.
  intros H.
  destruct (proj1 (test_true _ _ _) H) as (Hcm & _).
  destruct (proj1 (isCalleeMatched_true _ _ _) Hcm)
    as (_ & _ & (c & sc & p1 & p2 & Hc & Hsc & Hp1 & Hp2 & Heq)).
  exists c, p1, p2. unfold calleeAst. rewrite Hsc. simpl. auto.
Qed.

Lemma test_true_calleeAst_witness :
  @test reference m_obj_method_a (Sample.cand_obj_method_x 20 0) = Ok true
  /\ exists c p q,
       @calleeAst reference m_obj_method_a = Ok p
       /\ get (Sample.cand_obj_method_x 20 0) "callee" = Ok c
       /\ @espurify reference c = Ok q
       /\ @deepEqual reference p q = true.
Proof.
  split; [reflexivity|].
  apply (test_true_calleeAst reference m_obj_method_a (Sample.cand_obj_method_x 20 0)).
  reflexivity.
Defined.

(** ** Further properties of the depth comparison *)

Lemma isSameAstDepth_visit_break (ps : list (option path)) (p : option path)
      (rest : trace) (depth : nat) : forall cur,
  (cur <= depth)%nat ->
  Forall (fun q => (pathDepth_of q <= depth)%nat) ps ->
  (depth < pathDepth_of p)%nat ->
  isSameAstDepth_visit depth cur (enters ps (Enter p rest)) = Ok (pathDepth_of p).
Proof.
  induction ps as [|q tl IH]; simpl; intros cur Hcur Hall Hp.
  - destruct (Nat.ltb_spec cur (pathDepth_of p)) as [_|Hge]; [|lia].
    destruct (Nat.ltb_spec depth (pathDepth_of p)) as [_|Hge]; [reflexivity|lia].
  - inversion Hall as [|q' tl' Hq Htl]; subst.
    set (cur' := if (cur <? pathDepth_of q)%nat then pathDepth_of q else cur).
    assert (Hcur' : (cur' <= depth)%nat).
    { unfold cur'. destruct (cur <? pathDepth_of q)%nat; assumption. }
    destruct (Nat.ltb_spec depth cur') as [Hlt|_]; [lia|].
    apply IH; assumption.
Qed.

(** X17. [isSameAstDepth] stops at the first node deeper than the depth
    asked for: it answers false there, and what the traversal would have
    done afterwards (more nodes, or an error such as an unknown node type)
    plays no part. *)
Theorem isSameAstDepth_breaks (E : Externals) (ast : value) (depth : nat)
        (keys : VisitorKeys) (ps : list (option path)) (p : option path)
        (rest : trace) :
  estraverse_traverse keys ast = enters ps (Enter p rest) ->
  Forall (fun q => (pathDepth_of q <= depth)%nat) ps ->
  (depth < pathDepth_of p)%nat ->
  isSameAstDepth ast depth keys = Ok false.
Proof.
  intros Ht Hall Hp. unfold isSameAstDepth. rewrite Ht.
  rewrite (isSameAstDepth_visit_break ps p rest depth 0 (Nat.le_0_l depth) Hall Hp).
  simpl. f_equal. apply Nat.eqb_neq. lia.
Qed.

Lemma isSameAstDepth_breaks_witness :
  @estraverse_traverse reference []
    (Sample.member 11 (Sample.node 12 "JSXElement" []) (Sample.ident 15 "c"))
  = enters [None] (Enter (Some [PKey "object"])
                     (Raise (Reference.unknownNodeType "JSXElement")))
  /\ @isSameAstDepth reference
       (Sample.member 11 (Sample.node 12 "JSXElement" []) (Sample.ident 15 "c"))
       0 [] = Ok false
  /\ @astDepth reference
       (Sample.member 11 (Sample.node 12 "JSXElement" []) (Sample.ident 15 "c")) []
     = Throw (Reference.unknownNodeType "JSXElement").
Proof.
  split; [reflexivity|]. split; [|reflexivity].
  apply (isSameAstDepth_breaks reference
           (Sample.member 11 (Sample.node 12 "JSXElement" []) (Sample.ident 15 "c"))
           0 [] [None] (Some [PKey "object"])
           (Raise (Reference.unknownNodeType "JSXElement"))).
  - reflexivity.
  - repeat constructor.
  - simpl. lia.
Defined.

(** X18. The bounded comparison agrees with the full measure: when
    [astDepth] returns [d], [isSameAstDepth] returns whether the depth
    asked for is [d]; and it returns true only when [astDepth] returns
    exactly that depth. *)
Theorem isSameAstDepth_agrees (E : Externals) (ast : value) (depth : nat)
        (keys : VisitorKeys) :
  (forall d, astDepth ast keys = Ok d ->
             isSameAstDepth ast depth keys = Ok (Nat.eqb depth d))
  /\ (isSameAstDepth ast depth keys = Ok true <-> astDepth ast keys = Ok depth).
Proof.
  split.
  - intros d Hd. apply isSameAstDepth_astDepth. exact Hd.
  - apply isSameAstDepth_true.
Qed.

(** ** Further properties of the earlier implementation *)

Lemma legacy_test_true_call (E : Externals) (m' : Legacy.Matcher) (N : value) :
  Legacy.test m' N = Ok true -> isCallExpression N = Ok (VBool true).
Proof.
  unfold Legacy.test, Legacy.isCalleeMatched. intros H.
  bind_split H as cm Hcm. destruct cm; [|discriminate]. clear H.
  bind_split Hcm as c1 Hc1. destruct (truthy c1); simpl in Hcm; [|discriminate].
  bind_split Hcm as c2 Hc2. destruct (truthy c2) eqn:Ht2; simpl in Hcm; [|discriminate].
  rewrite (truthy_VBool_true _ _ Hc2 Ht2) in Hc2. exact Hc2.
Qed.

Lemma legacy_signature_arguments (E : Externals) (ast : value) (m' : Legacy.Matcher) :
  Legacy.Matcher_new ast = Ok m' ->
  Legacy.signatureAst m' = ast
  /\ exists rs sargs, get ast "arguments" = Ok (VArray rs sargs)
                      /\ Legacy.numMaxArgs m' = Z.of_nat (length sargs).
Proof.
  unfold Legacy.Matcher_new. intros H.
  bind_split H as a Ha. bind_split H as args Hargs. bind_split H as ids Hids.
  injection H as <-. simpl.
  destruct a; simpl in Hargs; try discriminate. injection Hargs as ->.
  split; [reflexivity|]. eauto.
Qed.

(** X19. In the earlier implementation a candidate that is none of the
    arguments of a matching parent makes [matchArgument] raise a
    [TypeError]: the signature's arguments are indexed at -1 and the type
    of [undefined] is read. *)
Theorem legacy_matchArgument_unrelated_raises (E : Externals) (ast : value)
        (m' : Legacy.Matcher) (cur parent c : value) (r : nat)
        (args : list value) :
  Legacy.Matcher_new ast = Ok m' ->
  Legacy.test m' parent = Ok true ->
  get parent "arguments" = Ok (VArray r args) ->
  get parent "callee" = Ok c ->
  strict_eq c cur = false ->
  forallb (fun x => negb (strict_eq x cur)) args = true ->
  Legacy.matchArgument m' cur parent = Throw TypeError.
Proof.
  intros Hnew Htest Hargs Hc Hne Hnone.
  destruct (legacy_signature_arguments _ _ _ Hnew) as (Hs & rs & sargs & Hsa & _).
  destruct (isCalleeOfParent_false _ _ _ (legacy_test_true_call _ _ _ Htest) Hc Hne)
    as (v & Hv & Hfalse).
  unfold Legacy.matchArgument. rewrite Hv. simpl. rewrite Hfalse, Htest. simpl.
  rewrite Hargs. simpl. rewrite (index_from_absent _ _ _ Hnone).
  rewrite Hs, Hsa. reflexivity.
Qed.

Lemma legacy_matchArgument_unrelated_raises_witness :
  @Legacy.Matcher_new Sample.call_f_a_optb = Ok legacy_m_f_a_optb
  /\ @Legacy.test reference legacy_m_f_a_optb Sample.cand_f_1 = Ok true
  /\ @Legacy.matchArgument reference legacy_m_f_a_optb Sample.two Sample.cand_f_1
     = Throw TypeError.
Proof.
  split; [reflexivity|]. split; [reflexivity|].
  apply (legacy_matchArgument_unrelated_raises reference Sample.call_f_a_optb
           legacy_m_f_a_optb Sample.two Sample.cand_f_1 Sample.callee_f 10
           [Sample.one]); reflexivity.
Defined.

(** X20. In the earlier implementation classification is by position
    alone: the argument found at index [i] of a matching parent gets the
    descriptor of the signature's argument at index [i], whatever the
    order of mandatory and optional parameters. *)
Theorem legacy_classifies_by_position (E : Externals) (tree ast : value)
        (m' : Legacy.Matcher) (cur parent c : value) (r : nat)
        (args : list value) :
  extractExpressionFrom tree = Ok ast ->
  Legacy.Matcher_new ast = Ok m' ->
  Legacy.test m' parent = Ok true ->
  get parent "arguments" = Ok (VArray r args) ->
  get parent "callee" = Ok c ->
  strict_eq c cur = false ->
  existsb (fun x => strict_eq x cur) args = true ->
  exists rs sargs x d,
    get ast "arguments" = Ok (VArray rs sargs)
    /\ nth_error sargs (Z.to_nat (index_from 0 args cur)) = Some x
    /\ toArgumentSignature x = Ok (Some d)
    /\ Legacy.matchArgument m' cur parent = Ok (Descriptor d).
Proof.
  intros Hex Hnew Htest Hargs Hc Hne Hfound.
  destruct (legacy_signature_arguments _ _ _ Hnew) as (Hs & rs & sargs & Hsa & Hmax).
  destruct (extracted_facts _ _ Hex) as (_ & rs' & sargs' & names & Hsa' & Hnames).
  rewrite Hsa in Hsa'. injection Hsa' as <- <-.
  destruct (forEach_args_descriptors _ _ _ Hnames) as (ds & ids & Hm & _).
  destruct (isCalleeOfParent_false _ _ _ (legacy_test_true_call _ _ _ Htest) Hc Hne)
    as (v & Hv & Hfalse).
  pose proof (index_from_found args cur 0 (Z.le_refl 0) Hfound) as Hi.
  (* the argument count is within the bounds *)
  assert (Hcount : Z.of_nat (length args) <= Z.of_nat (length sargs)).
  { unfold Legacy.test in Htest. bind_split Htest as cm Hcm.
    destruct cm; [|discriminate]. rewrite Hargs in Htest. simpl in Htest.
    destruct (Legacy.numMinArgs m' <=? Z.of_nat (length args)); [|discriminate].
    simpl in Htest. injection Htest as Htest. apply Z.leb_le in Htest. lia. }
  set (i := index_from 0 args cur) in *.
  destruct (nth_error sargs (Z.to_nat i)) as [x|] eqn:Hx;
    [|apply nth_error_None in Hx; lia].
  destruct (map_with_nth_error _ _ _ _ _ Hm Hx) as (y & Hy & Hny).
  rewrite nth_error_map in Hny.
  destruct (nth_error ds (Z.to_nat i)) as [d|]; simpl in Hny; [|discriminate].
  injection Hny as <-.
  exists rs, sargs, x, d. repeat split; try assumption.
  unfold Legacy.matchArgument. rewrite Hv. simpl. rewrite Hfalse, Htest. simpl.
  rewrite Hargs. simpl. fold i. rewrite Hs, Hsa. simpl.
  destruct (Z.ltb_spec i 0) as [Hlt|_]; [lia|]. simpl.
  rewrite (nth_error_nth _ _ VUndefined Hx).
  unfold Legacy.argMatchResult. rewrite Hy. reflexivity.
Qed.

Lemma legacy_classifies_by_position_witness :
  extractExpressionFrom Sample.sig_f_opta_b = Ok Sample.call_f_opta_b
  /\ @Legacy.Matcher_new Sample.call_f_opta_b = Ok legacy_m_f_opta_b
  /\ @Legacy.test reference legacy_m_f_opta_b Sample.cand_f_1 = Ok true
  /\ exists rs sargs x d,
       get Sample.call_f_opta_b "arguments" = Ok (VArray rs sargs)
       /\ nth_error sargs (Z.to_nat (index_from 0 [Sample.one] Sample.one)) = Some x
       /\ toArgumentSignature x = Ok (Some d)
       /\ @Legacy.matchArgument reference legacy_m_f_opta_b Sample.one Sample.cand_f_1
          = Ok (Descriptor d).
Proof.
  split; [reflexivity|]. split; [reflexivity|]. split; [reflexivity|].
  apply (legacy_classifies_by_position reference Sample.sig_f_opta_b
           Sample.call_f_opta_b legacy_m_f_opta_b Sample.one Sample.cand_f_1
           Sample.callee_f 10 [Sample.one]); reflexivity.
Defined.

(** X21. The two implementations accept the same candidates: for one
    signature and no options, [test] of [index.js] is true exactly when
    [test] of the earlier implementation is. *)
Theorem legacy_test_true_iff (E : Externals) (tree ast : value) (m : Matcher)
        (m' : Legacy.Matcher) (N : value) :
  extractExpressionFrom tree = Ok ast ->
  Matcher_new ast no_options = Ok m ->
  Legacy.Matcher_new ast = Ok m' ->
  (test m N = Ok true <-> Legacy.test m' N = Ok true).
Proof.
  intros Hex Hnew Hold. split.
  - intros H.
    destruct (constructed_facts _ _ _ _ _ Hex Hnew)
      as (_ & Hsig & _ & _ & _ & _ & (callee & Hcallee & Hdepth)).
    destruct (legacy_constructed _ _ _ _ Hnew Hold) as (Hs & Hs' & Hkeys & Hmin & Hmax).
    destruct (proj1 (test_true _ _ _) H) as (Hcm & n & (a & Ha & Hlen) & Hlo & Hhi).
    destruct (proj1 (isCalleeMatched_true _ _ _) Hcm)
      as (Hcall & (c & Hc & Hd) & (c' & sc & p1 & p2 & Hc' & Hsc & Hp1 & Hp2 & Heq)).
    rewrite Hc in Hc'. injection Hc' as <-.
    rewrite Hs, Hcallee in Hsc. injection Hsc as <-.
    rewrite Hkeys in Hdepth, Hd.
    unfold Legacy.test, Legacy.isCalleeMatched.
    rewrite Hs', Hsig. simpl. rewrite Hcall. simpl. rewrite Hcallee. simpl.
    change (Legacy.astDepth callee) with (astDepth callee estraverse_VisitorKeys).
    rewrite Hdepth. simpl. rewrite Hc. simpl.
    change (Legacy.astDepth c) with (astDepth c estraverse_VisitorKeys).
    rewrite Hd. simpl. rewrite Nat.eqb_refl. simpl.
    rewrite Hp1. simpl. rewrite Hp2. simpl. rewrite Heq.
    rewrite Ha. simpl. rewrite Hlen. simpl. rewrite Hmin, Hmax.
    apply Z.leb_le in Hlo, Hhi. rewrite Hlo. simpl. rewrite Hhi. reflexivity.
  - apply legacy_test with (tree := tree) (ast := ast); assumption.
Qed.

Lemma legacy_test_true_iff_witness :
  extractExpressionFrom Sample.sig_f_opta_b = Ok Sample.call_f_opta_b
  /\ @Matcher_new reference Sample.call_f_opta_b no_options = Ok m_f_opta_b
  /\ @Legacy.Matcher_new Sample.call_f_opta_b = Ok legacy_m_f_opta_b
  /\ @Legacy.test reference legacy_m_f_opta_b Sample.cand_f_1 = Ok true.
Proof.
  split; [reflexivity|]. split; [reflexivity|]. split; [reflexivity|].
  apply (proj1 (legacy_test_true_iff reference Sample.sig_f_opta_b
                  Sample.call_f_opta_b m_f_opta_b legacy_m_f_opta_b Sample.cand_f_1
                  eq_refl eq_refl eq_refl)).
  reflexivity.
Defined.

(** ** Position metadata *)

#[local] Arguments String.eqb : simpl never.

Lemma forall2b_length {A B : Type} (f : A -> B -> bool) (l1 : list A) :
  forall l2, forall2b f l1 l2 = true -> length l1 = length l2.
Proof.
  induction l1 as [|x t1 IH]; intros [|y t2]; simpl; intros H;
    try discriminate; [reflexivity|].
  apply andb_true_iff in H. destruct H as [_ H]. f_equal. apply IH. exact H.
Qed.

Lemma relocated_truthy (a b : value) :
  relocated a b = true -> truthy a = truthy b.
Proof.
  destruct a, b; simpl; intros H; try discriminate; try reflexivity.
  - apply Bool.eqb_prop in H. congruence.
  - apply Z.eqb_eq in H. congruence.
  - apply String.eqb_eq in H. congruence.
Qed.

Lemma relocated_VStr (a b : value) (s : string) :
  relocated a b = true -> strict_eq a (VStr s) = strict_eq b (VStr s).
Proof.
  destruct a, b; simpl; intros H; try discriminate; try reflexivity.
  apply String.eqb_eq in H. congruence.
Qed.

Lemma relocated_lookup (k : string) (ps1 : list (string * value)) :
  forall ps2,
    is_position k = false ->
    forall2b
      (fun (kv1 kv2 : string * value) =>
         let (k1, v1) := kv1 in
         let (k2, v2) := kv2 in
         String.eqb k1 k2
         && (if is_position k1 then inert v1 && inert v2 else relocated v1 v2))
      ps1 ps2 = true ->
    match lookup k ps1, lookup k ps2 with
    | Some x, Some y => relocated x y = true
    | None, None => True
    | _, _ => False
    end.
Proof.
  induction ps1 as [|[k1 v1] t1 IH]; intros [|[k2 v2] t2] Hk; simpl; intros H;
    try discriminate; [exact I|].
  apply andb_true_iff in H. destruct H as [H Ht].
  apply andb_true_iff in H. destruct H as [Hkk Hv].
  apply String.eqb_eq in Hkk. subst k2.
  destruct (String.eqb_spec k k1) as [<-|_].
  - rewrite Hk in Hv. exact Hv.
  - apply IH; assumption.
Qed.

Lemma relocated_isNode (a b : value) :
  relocated a b = true -> Reference.isNode a = Reference.isNode b.
Proof.
  destruct a as [| | | | | |r1 ps1], b as [| | | | | |r2 ps2]; simpl; intros H;
    try discriminate; try reflexivity.
  pose proof (relocated_lookup "type" ps1 ps2 eq_refl H) as L.
  destruct (lookup "type" ps1) as [x|], (lookup "type" ps2) as [y|];
    try contradiction; [|reflexivity].
  destruct x, y; simpl in L; try discriminate; reflexivity.
Qed.

Lemma relocated_get (a b : value) (k : string) :
  relocated a b = true ->
  is_position k = false ->
  related_results (get a k) (get b k).
Proof.
  intros H Hk.
  destruct a as [| | | | |r1 l1|r1 ps1], b as [| | | | |r2 l2|r2 ps2];
    simpl in H; try discriminate; simpl; try reflexivity.
  - apply String.eqb_eq in H. subst s0.
    destruct (String.eqb k "length"); simpl; [apply Z.eqb_refl | reflexivity].
  - rewrite (forall2b_length _ _ _ H).
    destruct (String.eqb k "length"); simpl; [apply Z.eqb_refl | reflexivity].
  - pose proof (relocated_lookup k ps1 ps2 Hk H) as L.
    destruct (lookup k ps1), (lookup k ps2); simpl; try contradiction; auto.
Qed.

Lemma walk_object (keys : VisitorKeys) (p : option path) (wrap : option string)
      (r : nat) (ps : list (string * value)) :
  Reference.walk keys p wrap (VObject r ps)
  = Enter p
      match Reference.nodeType_of (Reference.type_of ps) wrap with
      | Throw e => Raise e
      | Ok nodeType =>
          match Reference.lookup_keys nodeType keys with
          | None => Raise (Reference.unknownNodeType nodeType)
          | Some candidates =>
              Reference.each_key
                (fun key =>
                   Reference.find_child key
                     (Reference.child_trace keys p nodeType key) ps)
                candidates
          end
      end.
Proof. reflexivity. Qed.

Lemma each_key_ext (f g : string -> trace) (cs : list string) :
  (forall key, f key = g key) ->
  Reference.each_key f cs = Reference.each_key g cs.
Proof.
  intros Hfg. induction cs as [|key tl IH]; simpl; [reflexivity|].
  rewrite Hfg, IH. reflexivity.
Qed.

Lemma position_not_properties (nodeType key : string) :
  is_position key = true -> Reference.isProperty nodeType key = false.
Proof.
  unfold is_position, Reference.isProperty. simpl. intros H.
  destruct (String.eqb key "loc") eqn:Hloc.
  - apply String.eqb_eq in Hloc. subst key. apply andb_false_r.
  - destruct (String.eqb key "range") eqn:Hrange; [|discriminate].
    apply String.eqb_eq in Hrange. subst key. apply andb_false_r.
Qed.

(** Nothing is visited below a position record. *)
Lemma child_trace_inert (keys : VisitorKeys) (p : option path)
      (nodeType key : string) (v : value) :
  is_position key = true ->
  inert v = true ->
  Reference.child_trace keys p nodeType key v = Done.
Proof.
  intros Hk Hv. unfold Reference.child_trace.
  rewrite (position_not_properties nodeType key Hk).
  destruct v as [| | | | |r es|r ps]; try reflexivity.
  - simpl in Hv. generalize 0%nat.
    induction es as [|e tl IH]; simpl; intros i; [reflexivity|].
    simpl in Hv. apply andb_true_iff in Hv. destruct Hv as [He Htl].
    apply negb_true_iff in He. rewrite He, (IH Htl).
    destruct (negb (truthy e)); reflexivity.
  - unfold inert in Hv. apply negb_true_iff in Hv. rewrite Hv. reflexivity.
Qed.

Lemma relocated_nodeType_of (t1 t2 : value) (wrap : option string) :
  relocated t1 t2 = true ->
  Reference.nodeType_of t1 wrap = Reference.nodeType_of t2 wrap.
Proof.
  intros H. unfold Reference.nodeType_of.
  rewrite (relocated_truthy _ _ H).
  destruct t1, t2; simpl in H; try discriminate; try reflexivity.
  apply String.eqb_eq in H. subst. reflexivity.
Qed.

Lemma relocated_type_of (ps1 ps2 : list (string * value)) (r1 r2 : nat) :
  relocated (VObject r1 ps1) (VObject r2 ps2) = true ->
  relocated (Reference.type_of ps1) (Reference.type_of ps2) = true.
Proof.
  simpl. intros H. unfold Reference.type_of.
  pose proof (relocated_lookup "type" ps1 ps2 eq_refl H) as L.
  destruct (lookup "type" ps1), (lookup "type" ps2); try contradiction; auto.
Qed.

(** Two relocated values are traversed alike, as roots and as children. *)
Lemma relocated_walk (v1 : value) :
  forall v2,
    relocated v1 v2 = true ->
    (forall keys p wrap, Reference.walk keys p wrap v1 = Reference.walk keys p wrap v2)
    /\ (forall keys p nodeType key,
          Reference.child_trace keys p nodeType key v1
          = Reference.child_trace keys p nodeType key v2).
Proof.
  induction v1 as [| | b | n | s | r l IH | r ps IH] using value_deep_ind;
    intros v2 H.
  - destruct v2; try discriminate. split; reflexivity.
  - destruct v2; try discriminate. split; reflexivity.
  - destruct v2; simpl in H; try discriminate.
    apply Bool.eqb_prop in H. subst. split; reflexivity.
  - destruct v2; simpl in H; try discriminate.
    apply Z.eqb_eq in H. subst. split; reflexivity.
  - destruct v2; simpl in H; try discriminate.
    apply String.eqb_eq in H. subst. split; reflexivity.
  - destruct v2 as [| | | | |r2 l2|]; simpl in H; try discriminate.
    split; [reflexivity|].
    intros keys p nodeType key. unfold Reference.child_trace.
    generalize 0%nat. revert l2 H.
    induction IH as [|e1 t1 He1 _ IHt]; intros [|e2 t2] H i; simpl in H;
      try discriminate; [reflexivity|].
    apply andb_true_iff in H. destruct H as [He Ht].
    simpl. rewrite (IHt _ Ht).
    rewrite (relocated_truthy _ _ He), (relocated_isNode _ _ He).
    destruct (He1 _ He) as (Hw & _). rewrite !Hw. reflexivity.
  - destruct v2 as [| | | | | |r2 ps2]; simpl in H; try discriminate.
    assert (Hwalk : forall keys p wrap,
               Reference.walk keys p wrap (VObject r ps)
               = Reference.walk keys p wrap (VObject r2 ps2)).
    { intros keys p wrap. rewrite !walk_object.
      rewrite (relocated_nodeType_of _ _ wrap (relocated_type_of ps ps2 r r2 H)).
      destruct (Reference.nodeType_of (Reference.type_of ps2) wrap) as [nodeType|e];
        [|reflexivity].
      destruct (Reference.lookup_keys nodeType keys) as [candidates|]; [|reflexivity].
      f_equal. apply each_key_ext. intros key.
      clear candidates. revert ps2 H.
      induction IH as [|[k1 c1] t1 Hc1 _ IHt]; intros [|[k2 c2] t2] H; simpl in H;
        try discriminate; [reflexivity|].
      apply andb_true_iff in H. destruct H as [H Ht].
      apply andb_true_iff in H. destruct H as [Hk Hc].
      apply String.eqb_eq in Hk. subst k2.
      simpl. rewrite (IHt _ Ht).
      destruct (String.eqb key k1) eqn:Hkey; [|reflexivity].
      apply String.eqb_eq in Hkey. subst k1.
      destruct (is_position key) eqn:Hpos.
      - apply andb_true_iff in Hc. destruct Hc as [Hi1 Hi2].
        rewrite !child_trace_inert by assumption. reflexivity.
      - simpl in Hc1. destruct (Hc1 _ Hc) as (_ & Hchild). apply Hchild. }
    split; [exact Hwalk|].
    intros keys p nodeType key. unfold Reference.child_trace.
    rewrite (relocated_isNode (VObject r ps) (VObject r2 ps2) H), Hwalk.
    reflexivity.
Qed.

Lemma position_metadata (k : string) :
  is_position k = true -> Reference.is_metadata k = true.
Proof.
  unfold is_position, Reference.is_metadata. simpl.
  destruct (String.eqb k "loc"); [reflexivity|].
  destruct (String.eqb k "range"); [reflexivity | discriminate].
Qed.

(** Two relocated values have one purified form. *)
Lemma relocated_purify (v1 : value) :
  forall v2, relocated v1 v2 = true -> Reference.purify v1 = Reference.purify v2.
Proof.
  induction v1 as [| | b | n | s | r l IH | r ps IH] using value_deep_ind;
    intros v2 H; destruct v2 as [| | b2 | n2 | s2 | r2 l2 | r2 ps2];
    simpl in H; try discriminate; try reflexivity.
  - apply Bool.eqb_prop in H. subst. reflexivity.
  - apply Z.eqb_eq in H. subst. reflexivity.
  - apply String.eqb_eq in H. subst. reflexivity.
  - simpl. f_equal. revert l2 H.
    induction IH as [|e1 t1 He1 _ IHt]; intros [|e2 t2] H; simpl in H;
      try discriminate; [reflexivity|].
    apply andb_true_iff in H. destruct H as [He Ht].
    simpl. rewrite (He1 _ He), (IHt _ Ht). reflexivity.
  - simpl. f_equal. revert ps2 H.
    induction IH as [|[k1 c1] t1 Hc1 _ IHt]; intros [|[k2 c2] t2] H; simpl in H;
      try discriminate; [reflexivity|].
    apply andb_true_iff in H. destruct H as [H Ht].
    apply andb_true_iff in H. destruct H as [Hk Hc].
    apply String.eqb_eq in Hk. subst k2.
    simpl. rewrite (IHt _ Ht).
    destruct (Reference.is_metadata k1) eqn:Hmeta; [reflexivity|].
    destruct (is_position k1) eqn:Hpos.
    + rewrite (position_metadata _ Hpos) in Hmeta. discriminate.
    + simpl in Hc1. rewrite (Hc1 _ Hc). reflexivity.
Qed.

Lemma relocated_js_le (x y : value) :
  relocated x y = true ->
  forall a, js_le a x = js_le a y /\ js_le x a = js_le y a.
Proof.
  intros H a.
  destruct x, y; simpl in H; try discriminate;
    try (split; destruct a; reflexivity).
  apply Z.eqb_eq in H. subst. split; reflexivity.
Qed.

Lemma relocated_isCallExpression (N1 N2 : value) :
  relocated N1 N2 = true ->
  exists c1 c2, isCallExpression N1 = Ok c1 /\ isCallExpression N2 = Ok c2
                /\ truthy c1 = truthy c2.
Proof.
  intros H. unfold isCallExpression.
  rewrite <- (relocated_truthy _ _ H).
  destruct (truthy N1) eqn:HN1.
  - pose proof (relocated_get N1 N2 "type" H eq_refl) as G.
    destruct (get_truthy N1 "type" HN1) as (t1 & Ht1).
    rewrite Ht1 in *. destruct (get N2 "type") as [t2|]; simpl in G; [|contradiction].
    simpl. rewrite (relocated_VStr _ _ CallExpression G). eauto.
  - exists N1, N2. rewrite <- (relocated_truthy _ _ H). auto.
Qed.

Lemma relocated_isCalleeMatched (sig N1 N2 : value) (d : nat) (keys : VisitorKeys) :
  relocated N1 N2 = true ->
  @isCalleeMatched reference sig d N1 keys = @isCalleeMatched reference sig d N2 keys.
Proof.
  intros H. unfold isCalleeMatched.
  destruct (relocated_isCallExpression _ _ H) as (c1 & c2 & -> & -> & Hc).
  simpl. rewrite <- Hc. destruct (truthy c1); [simpl|reflexivity].
  pose proof (relocated_get N1 N2 "callee" H eq_refl) as G.
  destruct (get N1 "callee") as [callee1|e1], (get N2 "callee") as [callee2|e2];
    simpl in G; try contradiction; [|subst; reflexivity].
  simpl. unfold isSameAstDepth. simpl. unfold Reference.traverse.
  rewrite (proj1 (relocated_walk _ _ G)).
  destruct (isSameAstDepth_visit d 0
              (Reference.walk (keys ++ Reference.VisitorKeys_default) None None callee2));
    [simpl|reflexivity].
  destruct (negb (Nat.eqb d a)); [reflexivity|].
  destruct (get sig "callee"); [simpl|reflexivity].
  rewrite (relocated_purify _ _ G). reflexivity.
Qed.

(** C6. Two candidates that are one tree read at two places (equal but for
    addresses and for the position records under [loc] and [range]) get
    the same verdict from [test], for every matcher: the traversal does
    not enter position records and purification removes them. *)
Theorem test_position_independent (m : Matcher) (N1 N2 : value) :
  relocated N1 N2 = true ->
  @test reference m N1 = @test reference m N2.
Proof.
  intros H. unfold test.
  rewrite (relocated_isCalleeMatched (signatureAst m) N1 N2
             (signatureCalleeDepth m) (visitorKeys m) H).
  destruct (@isCalleeMatched reference (signatureAst m) (signatureCalleeDepth m) N2
              (visitorKeys m)) as [[|]|e]; simpl; try reflexivity.
  pose proof (relocated_get N1 N2 "arguments" H eq_refl) as G.
  destruct (get N1 "arguments") as [a1|e1], (get N2 "arguments") as [a2|e2];
    simpl in G; try contradiction; [|subst; reflexivity].
  simpl.
  pose proof (relocated_get a1 a2 "length" G eq_refl) as L.
  destruct (get a1 "length") as [n1|e1], (get a2 "length") as [n2|e2];
    simpl in L; try contradiction; [|subst; reflexivity].
  change (lo <- js_le (VNum (numMinArgs m)) n1 ;;
          (if lo then js_le n1 (VNum (numMaxArgs m)) else Ok false)
          = (lo <- js_le (VNum (numMinArgs m)) n2 ;;
             (if lo then js_le n2 (VNum (numMaxArgs m)) else Ok false))).
  destruct (relocated_js_le _ _ L (VNum (numMinArgs m))) as (-> & _).
  destruct (relocated_js_le _ _ L (VNum (numMaxArgs m))) as (_ & ->).
  reflexivity.
Qed.

(** [obj.method(x)] read at offset 0 and at offset 40 against the
    signature [obj.method(a)]. *)
Lemma test_position_independent_witness :
  relocated (Sample.cand_obj_method_x 20 0) (Sample.cand_obj_method_x 30 40) = true
  /\ @test reference m_obj_method_a (Sample.cand_obj_method_x 20 0) = Ok true
  /\ @test reference m_obj_method_a (Sample.cand_obj_method_x 30 40) = Ok true.
Proof.
  split; [reflexivity|]. split; [reflexivity|].
  rewrite <- (test_position_independent m_obj_method_a
                (Sample.cand_obj_method_x 20 0) (Sample.cand_obj_method_x 30 40)
                eq_refl).
  reflexivity.
Defined.
